(** * whatshap/phase2gtf.py: phase-block segmentation

    A shallow embedding of [src/whatshap/phase2gtf.py].  The VCF reader
    ([vcf.Reader]) is an external collaborator: a run is modelled on the
    ordered list of records it yields.  Python exceptions are values of
    [exn]; code that may raise lives in the [outcome] monad. *)

From Stdlib Require Import Ascii.
From stdpp Require Import base option numbers list strings gmap sorting.

(** ** Exceptions and the error monad *)

Inductive exn : Type :=
  | AssertionError (msg : string)
  | AttributeError (attr : string)   (* attribute read on [None] *)
  | IndexError
  | ValueError
  | NameError (name : string)
  | UnboundLocalError (name : string).

Inductive outcome (A : Type) : Type :=
  | Done (a : A)
  | Raised (e : exn).
Arguments Done {A} a.
Arguments Raised {A} e.

#[global] Instance outcome_ret : MRet outcome := λ A a, Done a.
#[global] Instance outcome_bind : MBind outcome := λ A B f m,
  match m with
  | Done a => f a
  | Raised e => Raised e
  end.

(** [assert cond, msg]; the message is empty where the source gives none. *)
Definition py_assert (cond : bool) (msg : string) : outcome unit :=
  if cond then Done () else Raised (AssertionError msg).

(** [l[0]] *)
Definition index0 {A} (l : list A) : outcome A :=
  match l with
  | x :: _ => Done x
  | [] => Raised IndexError
  end.

(** Reading attribute [attr] of a variable that may hold [None]. *)
Definition getattr {A} (o : option A) (attr : string) : outcome A :=
  match o with
  | Some a => Done a
  | None => Raised (AttributeError attr)
  end.

(** Reading a local variable that may not have been assigned yet. *)
Definition read_local {A} (o : option A) (name : string) : outcome A :=
  match o with
  | Some a => Done a
  | None => Raised (UnboundLocalError name)
  end.

(** ** Records of the reader *)

(** One sample's call.  [HP = None] means that [call.data] has no
    attribute [HP]. *)
Record Call : Type := {
  is_het : bool;
  phased : bool;
  HP : option (list string);
}.

Record VariantRecord : Type := {
  CHROM : string;
  start : Z;
  is_snp : bool;
  ALT : list string;
  samples : list Call;
}.

(** [s.split('-')[0]]: the part of [s] before the first dash. *)
Fixpoint split_head (s : string) : string :=
  match s with
  | EmptyString => EmptyString
  | String c s' => if Ascii.eqb c "-"%char then EmptyString else String c (split_head s')
  end.

(** ** frequency_median (lines 32-45) *)

(** The loop over [sorted(frequencies)] with the partial sum [m]. *)
Fixpoint frequency_median_loop (frequencies : gmap nat nat) (middle m : nat)
    (lengths : list nat) : outcome nat :=
  match lengths with
  | [] => Raised (AssertionError "")
  | length :: rest =>
      match frequencies !! length with
      | None => Raised IndexError
      | Some f =>
          let m := m + f in
          if middle <=? m then Done length
          else frequency_median_loop frequencies middle m rest
      end
  end.

Definition frequency_median (frequencies : gmap nat nat) : outcome nat :=
  let middle := (1 + sum_list (snd <$> map_to_list frequencies)) / 2 in
  frequency_median_loop frequencies middle 0
    (merge_sort Nat.le (fst <$> map_to_list frequencies)).

(** ** GtfWriter (lines 48-59) *)

Definition dquote : string := String (Ascii.ascii_of_nat 34) EmptyString.

(** One line of the GTF file, column by column. *)
Record gtf_line : Type := {
  seqname : string;
  source : string;
  feature : string;
  gtf_start : Z;
  gtf_stop : Z;
  score : string;
  strand : string;
  frame : string;
  attributes : string;
}.

Definition gtf_attributes (name : string) : string :=
  "gene_id " +:+ dquote +:+ name +:+ dquote +:+ "; transcript_id "
    +:+ dquote +:+ name +:+ ".1" +:+ dquote +:+ ";".

(** [GtfWriter.write]: the file is the list of lines printed so far. *)
Definition GtfWriter_write (file : list gtf_line)
    (chromosome : string) (start stop : Z) (name : string) : outcome (list gtf_line) :=
  _ ← py_assert (bool_decide (start < stop)%Z) "";
  mret (file ++ [ {| seqname := chromosome; source := "Phasing"; feature := "exon";
                     gtf_start := start + 1; gtf_stop := stop;
                     score := "."; strand := "+"; frame := ".";
                     attributes := gtf_attributes name |} ]).

(** [max(l)] and [min(l)] *)
Definition py_max (l : list nat) : outcome nat :=
  match l with
  | [] => Raised ValueError
  | x :: l' => Done (foldl Nat.max x l')
  end.

Definition py_min (l : list nat) : outcome nat :=
  match l with
  | [] => Raised ValueError
  | x :: l' => Done (foldl Nat.min x l')
  end.

(** [l[i]] *)
Definition index {A} (l : list A) (i : nat) : outcome A :=
  match l !! i with
  | Some x => Done x
  | None => Raised IndexError
  end.

(** ** parse_hp_tags (lines 136-192) *)

Module HpTags.

(** The lines printed to stderr by [printe]. *)
Inductive stat_line : Type :=
  | VariantsInVCF (n : nat)
  | UsableVariants (n : nat)
  | BlocksDump (blocks : gmap (string * string) nat)
  | NoOfPhasedBlocks (n : nat)
  | LargestBlock (n : nat)
  | MedianBlockSize (n : nat)
  | SmallestBlock (n : nat).

(** The locals of [parse_hp_tags].  [gtf = None] is the Python [None]
    (no [gtfpath]); otherwise the lines written so far.  [block_start]
    is [None] until its first assignment.  ([prev_phased] is assigned
    once and never read; it is left out.) *)
Record state : Type := {
  gtf : option (list gtf_line);
  n_phased : nat;
  n_records : nat;
  blocks : gmap (string * string) nat;
  prev_block_name : option string;
  prev_record : option VariantRecord;
  block_start : option Z;
}.

Definition init (gtfpath : bool) : state :=
  {| gtf := if gtfpath then Some [] else None;
     n_phased := 0; n_records := 0; blocks := ∅;
     prev_block_name := None; prev_record := None; block_start := None |}.

(** [blocks[key] += 1] on a [Counter] *)
Definition counter_incr (key : string * string)
    (c : gmap (string * string) nat) : gmap (string * string) nat :=
  <[key := S (default 0 (c !! key))]> c.

Definition hasattr_HP (call : Call) : bool := bool_decide (is_Some (HP call)).

(** Lines 157-164: the block name of the record and the updated tallies. *)
Definition tag_record (st : state) (record : VariantRecord) (call : Call)
    : outcome (option string * gmap (string * string) nat * nat) :=
  match HP call with
  | None => mret (None, blocks st, n_phased st)
  | Some hp =>
      _ ← py_assert (bool_decide (length hp = 2)) "";
      hp0 ← index0 hp;
      let block_name := split_head hp0 in
      mret (Some block_name, counter_incr (CHROM record, block_name) (blocks st),
            S (n_phased st))
  end.

(** Line 166: [prev_block_name != block_name or prev_record.CHROM != record.CHROM] *)
Definition is_transition (st : state) (block_name : option string)
    (record : VariantRecord) : outcome bool :=
  if bool_decide (prev_block_name st ≠ block_name) then mret true
  else
    prev ← getattr (prev_record st) "CHROM";
    mret (bool_decide (CHROM prev ≠ CHROM record)).

(** Lines 168-171: close the block that ended at the previous record. *)
Definition close_block (st : state) : outcome (option (list gtf_line)) :=
  match prev_block_name st with
  | None => mret (gtf st)
  | Some name =>
      match gtf st with
      | None => mret None
      | Some file =>
          prev ← getattr (prev_record st) "CHROM";
          bs ← read_local (block_start st) "block_start";
          file' ← GtfWriter_write file (CHROM prev) bs (start prev + 1) name;
          mret (Some file')
      end
  end.

(** One iteration of the loop (lines 147-177). *)
Definition step (st : state) (record : VariantRecord) : outcome state :=
  let n_records := S (n_records st) in
  _ ← py_assert (bool_decide (length (samples record) = 1)) "";
  call ← index0 (samples record);
  _ ← py_assert (negb (bool_decide (1 < length (ALT record)) && hasattr_HP call)) "";
  _ ← py_assert (negb (negb (is_het call) && hasattr_HP call))
                "HP tag for homozygous variant found";
  '(block_name, blocks, n_phased) ← tag_record st record call;
  transition ← is_transition st block_name record;
  '(gtf, block_start) ←
    (if transition : bool then
       gtf ← close_block st;
       mret (gtf, if block_name is Some _ then Some (start record) else block_start st)
     else mret (gtf st, block_start st));
  mret {| gtf := gtf; n_phased := n_phased; n_records := n_records; blocks := blocks;
          prev_block_name := block_name; prev_record := Some record;
          block_start := block_start |}.

(** The [for] loop: the state before the failing record is kept, since
    nothing is written to the GTF file by an iteration that raises. *)
Fixpoint loop (st : state) (records : list VariantRecord) : state * option exn :=
  match records with
  | [] => (st, None)
  | record :: rest =>
      match step st record with
      | Done st' => loop st' rest
      | Raised e => (st, Some e)
      end
  end.

(** [blocks.values()] *)
Definition values (blocks : gmap (string * string) nat) : list nat :=
  snd <$> map_to_list blocks.

(** Line 191: [sorted(blocks.values())[len(blocks) // 2]] *)
Definition reported_median (blocks : gmap (string * string) nat) : outcome nat :=
  index (merge_sort Nat.le (values blocks)) (size blocks / 2).

(** Lines 184-192: the statistics. *)
Definition finalize (st : state) : list stat_line * option exn :=
  let head := [ VariantsInVCF (n_records st); UsableVariants (n_phased st);
                BlocksDump (blocks st); NoOfPhasedBlocks (size (blocks st)) ] in
  if bool_decide (blocks st ≠ ∅) then
    match py_max (values (blocks st)) with
    | Raised e => (head, Some e)
    | Done largest =>
        match reported_median (blocks st) with
        | Raised e => (head ++ [LargestBlock largest], Some e)
        | Done median =>
            match py_min (values (blocks st)) with
            | Raised e => (head ++ [LargestBlock largest; MedianBlockSize median], Some e)
            | Done smallest =>
                (head ++ [LargestBlock largest; MedianBlockSize median;
                          SmallestBlock smallest], None)
            end
        end
    end
  else (head, None).

(** What a run leaves behind: the GTF file, stderr, and the exception
    that ended it, if any. *)
Record result : Type := {
  gtf_file : option (list gtf_line);
  stderr : list stat_line;
  error : option exn;
  final : state;
}.

Definition parse_hp_tags (gtfpath : bool) (records : list VariantRecord) : result :=
  let '(st, err) := loop (init gtfpath) records in
  match err with
  | Some e => {| gtf_file := gtf st; stderr := []; error := Some e; final := st |}
  | None =>
      let '(lines, err) := finalize st in
      {| gtf_file := gtf st; stderr := lines; error := err; final := st |}
  end.

End HpTags.

(** ** parse_pipe_notation (lines 64-133) *)

Module PipeNotation.

(** A block line printed to stdout (lines 108 and 119): chromosome,
    start, end, and the [Len=..,N=..] column. *)
Record block_line : Type := {
  chrom : string;
  bstart : Z;
  bstop : Z;
  Len : Z;
  N : nat;
}.

(** The lines printed to stderr before line 129. *)
Inductive stat_line : Type :=
  | ConsideredVariants (n : nat)
  | Blocks (n : nat).

Definition first_phased_msg : string :=
  "First variant in VCF is phased. This shouldn't be.".

(** The locals of [parse_pipe_notation].  [block_start = None] is the
    Python [None]; [prev_start], [n_variants] and the loop variable
    [record] are [None] until their first assignment.  [warnings]
    counts the calls of [logger.warning]. *)
Record state : Type := {
  n : nat;
  block_start : option Z;
  singletons : nat;
  block_lengths : list Z;
  prev_start : option Z;
  n_variants : option nat;
  record_var : option VariantRecord;
  stdout : list block_line;
  warnings : nat;
}.

Definition init : state :=
  {| n := 0; block_start := None; singletons := 0; block_lengths := [];
     prev_start := None; n_variants := None; record_var := None;
     stdout := []; warnings := 0 |}.

(** The loop variable is rebound at the head of each iteration. *)
Definition bind_record (st : state) (record : VariantRecord) : state :=
  {| n := n st; block_start := block_start st; singletons := singletons st;
     block_lengths := block_lengths st; prev_start := prev_start st;
     n_variants := n_variants st; record_var := Some record;
     stdout := stdout st; warnings := warnings st |}.

Definition warn (st : state) : state :=
  {| n := n st; block_start := block_start st; singletons := singletons st;
     block_lengths := block_lengths st; prev_start := prev_start st;
     n_variants := n_variants st; record_var := record_var st;
     stdout := stdout st; warnings := S (warnings st) |}.

(** Lines 96-102: a phased call opens a block at [prev_start] or
    extends the open one. *)
Definition on_phased (st : state) : outcome state :=
  _ ← py_assert (bool_decide (0 < n st)) first_phased_msg;
  match block_start st with
  | None =>
      ps ← read_local (prev_start st) "prev_start";
      mret {| n := n st; block_start := Some ps; singletons := singletons st;
              block_lengths := block_lengths st; prev_start := prev_start st;
              n_variants := Some 2; record_var := record_var st;
              stdout := stdout st; warnings := warnings st |}
  | Some _ =>
      nv ← read_local (n_variants st) "n_variants";
      mret {| n := n st; block_start := block_start st; singletons := singletons st;
              block_lengths := block_lengths st; prev_start := prev_start st;
              n_variants := Some (nv + 1); record_var := record_var st;
              stdout := stdout st; warnings := warnings st |}
  end.

(** Lines 106-109 and 117-120: print the block that ends at [prev_start]. *)
Definition end_of_block (st : state) (bs : Z) : outcome state :=
  ps ← read_local (prev_start st) "prev_start";
  _ ← py_assert (bool_decide (bs < ps)%Z) "";
  let block_length := (ps - bs + 1)%Z in
  record ← read_local (record_var st) "record";
  nv ← read_local (n_variants st) "n_variants";
  mret {| n := n st; block_start := block_start st; singletons := singletons st;
          block_lengths := block_lengths st ++ [block_length];
          prev_start := prev_start st; n_variants := n_variants st;
          record_var := record_var st;
          stdout := stdout st ++ [ {| chrom := CHROM record; bstart := bs;
                                      bstop := ps + 1; Len := block_length; N := nv |} ];
          warnings := warnings st |}.

(** Lines 104-112: an unphased call ends the open block or is a singleton. *)
Definition on_unphased (st : state) : outcome state :=
  match block_start st with
  | Some bs =>
      st ← end_of_block st bs;
      mret {| n := n st; block_start := None; singletons := singletons st;
              block_lengths := block_lengths st; prev_start := prev_start st;
              n_variants := n_variants st; record_var := record_var st;
              stdout := stdout st; warnings := warnings st |}
  | None =>
      mret {| n := n st; block_start := None; singletons := S (singletons st);
              block_lengths := block_lengths st; prev_start := prev_start st;
              n_variants := n_variants st; record_var := record_var st;
              stdout := stdout st; warnings := warnings st |}
  end.

(** Lines 93-112: the branch on [call.phased]. *)
Definition on_call (st : state) (call : Call) : outcome state :=
  if phased call then on_phased st else on_unphased st.

(** Lines 114-115 *)
Definition advance (st : state) (record : VariantRecord) : state :=
  {| n := S (n st); block_start := block_start st; singletons := singletons st;
     block_lengths := block_lengths st; prev_start := Some (start record);
     n_variants := n_variants st; record_var := record_var st;
     stdout := stdout st; warnings := warnings st |}.

(** One iteration of the loop (lines 70-115). *)
Definition step (st : state) (record : VariantRecord) : outcome state :=
  let st := bind_record st record in
  if negb (is_snp record) then mret st
  else if bool_decide (1 < length (ALT record)) then mret (warn st)
  else
    call ← index0 (samples record);
    _ ← py_assert (bool_decide (length (samples record) = 1)) "";
    if negb (is_het call) then mret st
    else
      st ← on_call st call;
      mret (advance st record).

Fixpoint loop (st : state) (records : list VariantRecord) : state * option exn :=
  match records with
  | [] => (st, None)
  | record :: rest =>
      match step st record with
      | Done st' => loop st' rest
      | Raised e => (st, Some e)
      end
  end.

(** Lines 116-120: the block still open at the end of the stream. *)
Definition flush (st : state) : outcome state :=
  match block_start st with
  | Some bs => end_of_block st bs
  | None => mret st
  end.

(** Lines 127-133.  Line 129 reads the name [blocks], which is bound
    neither in the function, nor at module level, nor as a builtin:
    the statement raises, and lines 130-133 are never reached. *)
Definition finalize (st : state) : list stat_line * option exn :=
  ([ConsideredVariants (n st); Blocks (length (block_lengths st))],
   Some (NameError "blocks")).

Record result : Type := {
  out : list block_line;
  stderr : list stat_line;
  error : option exn;
  final : state;
}.

Definition parse_pipe_notation (records : list VariantRecord) : result :=
  let '(st, err) := loop init records in
  match err with
  | Some e => {| out := stdout st; stderr := []; error := Some e; final := st |}
  | None =>
      match flush st with
      | Raised e => {| out := stdout st; stderr := []; error := Some e; final := st |}
      | Done st' =>
          let '(lines, err) := finalize st' in
          {| out := stdout st'; stderr := lines; error := err; final := st' |}
      end
  end.

End PipeNotation.

(** ** The median as the specification words it *)

(** Written after the specification text, to be compared with
    [HpTags.reported_median]: sort the block sizes ascending, let
    [middle = ceil((1 + total variants) / 2)], and walk the sizes in
    ascending order, adding size times occurrence count to a running
    sum until it reaches [middle]. *)
Module SpecMedian.

Definition occurrences (sizes : list nat) (size : nat) : nat :=
  length (filter (λ x, x = size) sizes).

Fixpoint walk (sizes : list nat) (middle running : nat) (ascending : list nat)
    : option nat :=
  match ascending with
  | [] => None
  | size :: rest =>
      let running := running + size * occurrences sizes size in
      if middle <=? running then Some size
      else walk sizes middle running rest
  end.

Definition spec_median (sizes : list nat) : option nat :=
  let total := sum_list sizes in
  let middle := (1 + total + 1) / 2 in
  walk sizes middle 0 (remove_dups (merge_sort Nat.le sizes)).

End SpecMedian.

(** ** Sample records *)

Module Samples.

Definition tagged (hp0 hp1 : string) : Call :=
  {| is_het := true; phased := false; HP := Some [hp0; hp1] |}.

Definition untagged : Call :=
  {| is_het := true; phased := false; HP := None |}.

Definition het (is_phased : bool) : Call :=
  {| is_het := true; phased := is_phased; HP := None |}.

(** A single-sample SNP with one alternate allele. *)
Definition snp (chromosome : string) (pos : Z) (call : Call) : VariantRecord :=
  {| CHROM := chromosome; start := pos; is_snp := true; ALT := ["A"%string];
     samples := [call] |}.

Definition indel (chromosome : string) (pos : Z) (call : Call) : VariantRecord :=
  {| CHROM := chromosome; start := pos; is_snp := false; ALT := ["AT"%string];
     samples := [call] |}.

Definition multiallelic (chromosome : string) (pos : Z) (call : Call) : VariantRecord :=
  {| CHROM := chromosome; start := pos; is_snp := true; ALT := ["A"%string; "C"%string];
     samples := [call] |}.

Definition two_samples (chromosome : string) (pos : Z) (call : Call) : VariantRecord :=
  {| CHROM := chromosome; start := pos; is_snp := true; ALT := ["A"%string];
     samples := [call; call] |}.

(** The stream of the median counterexample: blocks [a], [b], [c] on
    [chr1] with 2, 2 and 4 tagged records. *)
Definition median_stream : list VariantRecord :=
  [ snp "chr1" 10 (tagged "a-1" "a-2");
    snp "chr1" 20 (tagged "a-1" "a-2");
    snp "chr1" 30 (tagged "b-1" "b-2");
    snp "chr1" 40 (tagged "b-1" "b-2");
    snp "chr1" 50 (tagged "c-1" "c-2");
    snp "chr1" 60 (tagged "c-1" "c-2");
    snp "chr1" 70 (tagged "c-1" "c-2");
    snp "chr1" 80 (tagged "c-1" "c-2") ].

(** A counter with block sizes 3, 3 and 5. *)
Definition blocks_3_3_5 : gmap (string * string) nat :=
  {[ ("chr1", "a") := 3; ("chr1", "b") := 3; ("chr1", "c") := 5 ]}.

(** The streams of the witness: a tag-based run that writes one block
    and an adjacency run that prints one. *)
Definition two_groups : list VariantRecord :=
  [ snp "chr1" 10 (tagged "42-1" "42-2");
    snp "chr1" 20 (tagged "42-1" "42-2");
    snp "chr1" 30 (tagged "43-1" "43-2") ].

Definition one_run : list VariantRecord :=
  [ snp "chr1" 10 (het false);
    snp "chr1" 20 (het true);
    snp "chr1" 30 (het true) ].

Definition two_runs : list VariantRecord :=
  [ snp "chr1" 10 (het false);
    snp "chr1" 20 (het true);
    snp "chr1" 30 (het false);
    snp "chr1" 40 (het true);
    snp "chr1" 50 (het false);
    snp "chr1" 60 (het false) ].

End Samples.

(** ** Notions used in the statements *)

Module HpProps.
Import HpTags.

(** The call whose tag the record carries, if there is one. *)
Definition first_call (r : VariantRecord) : option Call := head (samples r).

Definition carries_tag (r : VariantRecord) : Prop :=
  ∃ call, first_call r = Some call ∧ is_Some (HP call).

(** [blocks[key]] on a [Counter]: absent keys read as zero. *)
Definition count (c : gmap (string * string) nat) (key : string * string) : nat :=
  default 0 (c !! key).

(** What holds of the locals after any number of iterations: while a
    block is open its start is bound and its counter is positive, and
    every line written so far is a proper interval of a counted block. *)
Record Inv (st : state) : Prop := {
  inv_open : ∀ name, prev_block_name st = Some name →
    ∃ prev bs, prev_record st = Some prev ∧ block_start st = Some bs ∧
      1 ≤ count (blocks st) (CHROM prev, name);
  inv_written : ∀ file line, gtf st = Some file → line ∈ file →
    (gtf_start line - 1 < gtf_stop line)%Z ∧
    ∃ name, attributes line = gtf_attributes name ∧
      1 ≤ count (blocks st) (seqname line, name);
}.

End HpProps.

Module PipeProps.
Import PipeNotation.

(** Records the loop passes over (lines 70-78). *)
Definition skipped (r : VariantRecord) : Prop :=
  is_snp r = false ∨ 1 < length (ALT r) ∨
  ∃ call, samples r = [call] ∧ is_het call = false.

(** Records the loop examines: single-ALT SNP, one sample, heterozygous. *)
Definition examined (r : VariantRecord) (call : Call) : Prop :=
  is_snp r = true ∧ length (ALT r) ≤ 1 ∧ samples r = [call] ∧ is_het call = true.

(** Unphased records that ended a block: each one printed a line
    inside the loop (line 108). *)
Definition closed_by_unphased (rs : list VariantRecord) : nat :=
  length (stdout (loop init rs).1).

(** Variants of the block that is open, and whether one is. *)
Definition open_variants (st : state) : nat :=
  if block_start st is Some _ then default 0 (n_variants st) else 0.

Definition open_blocks (st : state) : nat :=
  if block_start st is Some _ then 1 else 0.

(** What holds of the locals after any number of iterations. *)
Record Inv (st : state) : Prop := {
  inv_open : is_Some (block_start st) → ∃ nv, n_variants st = Some nv ∧ 2 ≤ nv;
  inv_out : ∀ b, b ∈ stdout st → (bstart b < bstop b)%Z ∧ 2 ≤ N b;
  inv_sum : sum_list_with N (stdout st) + open_variants st + singletons st
            = n st + open_blocks st;
  inv_lengths : length (block_lengths st) = length (stdout st);
}.

(** Whether the first record of the stream is marked phased. *)
Definition first_record_phased (rs : list VariantRecord) : Prop :=
  ∃ r call, head rs = Some r ∧ head (samples r) = Some call ∧ phased call = true.

End PipeProps.

Module MedianProps.

(** How many sizes lie strictly below, and how many at or below, [m]. *)
Definition below (m : nat) (sizes : list nat) : nat :=
  length (filter (λ x, x < m) sizes).

Definition at_most (m : nat) (sizes : list nat) : nat :=
  length (filter (λ x, x ≤ m) sizes).

End MedianProps.

(** ** Notions for the remaining properties *)

Module TextProps.

(** Whether a string has no dash. *)
Fixpoint dash_free (s : string) : bool :=
  match s with
  | EmptyString => true
  | String c s' => negb (Ascii.eqb c "-"%char) && dash_free s'
  end.

End TextProps.

Module FrequencyProps.

(** The number of values a frequency table stands for, and how many
    of them lie strictly below, or at or below, a given length. *)
Definition total (frequencies : gmap nat nat) : nat :=
  sum_list_with snd (map_to_list frequencies).

Definition values_below (frequencies : gmap nat nat) (x : nat) : nat :=
  sum_list_with snd (filter (λ kv, kv.1 < x) (map_to_list frequencies)).

Definition values_at_most (frequencies : gmap nat nat) (x : nat) : nat :=
  sum_list_with snd (filter (λ kv, kv.1 ≤ x) (map_to_list frequencies)).

(** [frequencies[length]], zero for an absent length. *)
Definition frequency (frequencies : gmap nat nat) (length : nat) : nat :=
  default 0 (frequencies !! length).

End FrequencyProps.

Module TagProps.
Import HpTags.

(** Whether the first sample of the record has an [HP] attribute. *)
Definition is_tagged (r : VariantRecord) : bool :=
  match samples r with
  | call :: _ => bool_decide (is_Some (HP call))
  | [] => false
  end.

(** The key under which a tagged record is counted (line 163). *)
Definition block_key (r : VariantRecord) : option (string * string) :=
  match samples r with
  | call :: _ =>
      match HP call with
      | Some (hp0 :: _) => Some (CHROM r, split_head hp0)
      | _ => None
      end
  | [] => None
  end.

(** Records that pass the checks of lines 148-160: one sample; if it
    has an [HP] attribute, then two entries in it, a heterozygous call
    and at most one alternate allele. *)
Definition well_formed (r : VariantRecord) : Prop :=
  ∃ call, samples r = [call] ∧
    match HP call with
    | None => True
    | Some hp => length hp = 2 ∧ is_het call = true ∧ length (ALT r) ≤ 1
    end.

(** Consecutive records on one chromosome do not go back in position. *)
Fixpoint in_order (rs : list VariantRecord) : Prop :=
  match rs with
  | r1 :: (r2 :: _) as rest =>
      (CHROM r1 = CHROM r2 → (start r1 ≤ start r2)%Z) ∧ in_order rest
  | _ => True
  end.

(** The state with its GTF writer taken away. *)
Definition without_gtf (st : state) : state :=
  {| gtf := None; n_phased := n_phased st; n_records := n_records st;
     blocks := blocks st; prev_block_name := prev_block_name st;
     prev_record := prev_record st; block_start := block_start st |}.

(** The four count lines every report starts with. *)
Definition report_head (st : state) : list stat_line :=
  [ VariantsInVCF (n_records st); UsableVariants (n_phased st);
    BlocksDump (blocks st); NoOfPhasedBlocks (size (blocks st)) ].

End TagProps.

Module GtfProps.
Import HpTags HpProps TagProps.

(** A GTF line spans two tagged records of the given list that have
    the chromosome and block name of the line. *)
Definition line_of_records (seen : list VariantRecord) (line : gtf_line) : Prop :=
  ∃ first last name,
    first ∈ seen ∧ last ∈ seen ∧
    block_key first = Some (seqname line, name) ∧
    block_key last = Some (seqname line, name) ∧
    gtf_start line = (start first + 1)%Z ∧
    gtf_stop line = (start last + 1)%Z ∧
    attributes line = gtf_attributes name.

(** The block that is open lies on the chromosome of the previous
    record and started at a tagged record of the given list. *)
Definition open_block_of_records (seen : list VariantRecord) (st : state) : Prop :=
  ∀ name, prev_block_name st = Some name →
    ∃ prev bs first,
      prev_record st = Some prev ∧ block_start st = Some bs ∧
      prev ∈ seen ∧ block_key prev = Some (CHROM prev, name) ∧
      first ∈ seen ∧ start first = bs ∧
      block_key first = Some (CHROM prev, name).

(** A key of [blocks] is in the file, or is the block that is open. *)
Definition key_covered (st : state) (key : string * string) : Prop :=
  (∃ file line, gtf st = Some file ∧ line ∈ file ∧
     seqname line = key.1 ∧ attributes line = gtf_attributes key.2) ∨
  (prev_block_name st = Some key.2 ∧
   ∃ prev, prev_record st = Some prev ∧ CHROM prev = key.1).

End GtfProps.

Module PipeRunProps.
Import PipeNotation PipeProps.

(** The test of lines 70-78 as a boolean: the record is a single-ALT
    SNP with exactly one sample, which is heterozygous. *)
Definition is_examined (r : VariantRecord) : bool :=
  is_snp r && bool_decide (length (ALT r) ≤ 1) &&
  match samples r with
  | [call] => is_het call
  | _ => false
  end.

(** [record.samples[0].phased], false without samples. *)
Definition call_phased (r : VariantRecord) : bool :=
  match samples r with
  | call :: _ => phased call
  | [] => false
  end.

(** Records at which lines 75-76 do not raise. *)
Definition samples_ok (r : VariantRecord) : Prop :=
  is_snp r = false ∨ 1 < length (ALT r) ∨ ∃ call, samples r = [call].

(** The positions of the examined records, in stream order. *)
Definition examined_positions (rs : list VariantRecord) : list Z :=
  start <$> filter (λ r, is_examined r = true) rs.

(** The position of the previous examined record, if any. *)
Definition prev_position (st : state) : list Z :=
  match prev_start st with
  | Some ps => [ps]
  | None => []
  end.

(** One printed block ends before the other starts. *)
Definition before (b1 b2 : block_line) : Prop := (bstop b1 ≤ bstart b2)%Z.

(** What holds of the locals when the examined positions increase. *)
Record Ordered (st : state) : Prop := {
  ord_prev : 0 < n st → is_Some (prev_start st);
  ord_record : 0 < n st → is_Some (record_var st);
  ord_open : ∀ bs, block_start st = Some bs →
    0 < n st ∧ ∃ ps nv, prev_start st = Some ps ∧ (bs < ps)%Z ∧ n_variants st = Some nv;
  ord_sorted : StronglySorted before (stdout st);
  ord_last : ∀ b, b ∈ stdout st →
    match block_start st with
    | Some bs => (bstop b ≤ bs)%Z
    | None => ∃ ps, prev_start st = Some ps ∧ (bstop b ≤ ps)%Z
    end;
}.

(** The list kept for the statistics mirrors the printed lines, and
    the length column of a line is the width of its interval. *)
Definition lines_consistent (st : state) : Prop :=
  block_lengths st = Len <$> stdout st ∧
  ∀ b, b ∈ stdout st → Len b = (bstop b - bstart b)%Z ∧ (2 ≤ Len b)%Z.

End PipeRunProps.

(** * Properties *)

(** ** The error monad *)

Lemma bind_Done {A B} (m : outcome A) (f : A → outcome B) (b : B) :
  m ≫= f = Done b ↔ ∃ a, m = Done a ∧ f a = Done b.
Proof.
  destruct m as [a|e]; simpl; split.
  - eauto.
  - by intros (a' & [= <-] & ?).
  - done.
  - by intros (a' & ? & ?).
Qed.

Lemma py_assert_Done (cond : bool) (msg : string) (u : unit) :
  py_assert cond msg = Done u ↔ cond = true.
Proof. destruct cond, u; simpl; split; done. Qed.

Lemma getattr_Done {A} (o : option A) (attr : string) (a : A) :
  getattr o attr = Done a ↔ o = Some a.
Proof. destruct o; simpl; split; congruence. Qed.

Lemma read_local_Done {A} (o : option A) (name : string) (a : A) :
  read_local o name = Done a ↔ o = Some a.
Proof. destruct o; simpl; split; congruence. Qed.

(** Splits a hypothesis [m ≫= f = Done b] into its two halves. *)
Ltac bind_inv H x Hx :=
  apply bind_Done in H as (x & Hx & H); simpl in H.

(** ** Tag-based mode *)

Module HpFacts.
Import HpTags HpProps.

Lemma hp_loop_app st l1 l2 :
  loop st (l1 ++ l2) =
    match loop st l1 with
    | (st', None) => loop st' l2
    | (st', Some e) => (st', Some e)
    end.
Proof.
  revert st. induction l1 as [|r l1 IH]; intros st; simpl; [done|].
  destruct (step st r); [apply IH | done].
Qed.

Lemma step_samples st r st' :
  step st r = Done st' → ∃ call, samples r = [call].
Proof.
  unfold step. destruct (samples r) as [|c [|c' l]]; simpl; try done.
  eauto.
Qed.

Lemma hp_step_multi_sample st r :
  length (samples r) ≠ 1 → step st r = Raised (AssertionError "").
Proof.
  intros Hlen. unfold step.
  by rewrite (bool_decide_eq_false_2 (length (samples r) = 1)).
Qed.

Lemma step_tag_invalid st r call :
  first_call r = Some call → is_Some (HP call) →
  1 < length (ALT r) ∨ is_het call = false →
  ∃ msg, step st r = Raised (AssertionError msg).
Proof.
  intros Hc Htag Hbad. unfold first_call in Hc.
  destruct (decide (length (samples r) = 1)) as [Hlen|Hlen].
  - unfold step. rewrite (bool_decide_eq_true_2 (length (samples r) = 1)) by done.
    destruct (samples r) as [|c l]; simplify_eq/=.
    assert (hasattr_HP call = true) as -> by (by apply bool_decide_eq_true_2).
    destruct (decide (1 < length (ALT r))) as [Halt|Halt].
    + rewrite (bool_decide_eq_true_2 _ Halt). simpl. eauto.
    + rewrite (bool_decide_eq_false_2 _ Halt). simpl.
      destruct Hbad as [?| ->]; [done|]. simpl. eauto.
  - rewrite hp_step_multi_sample by done. eauto.
Qed.

Lemma step_Done st r st' :
  step st r = Done st' →
  ∃ call block_name transition,
    samples r = [call] ∧
    (1 < length (ALT r) → HP call = None) ∧
    (is_het call = false → HP call = None) ∧
    tag_record st r call = Done (block_name, blocks st', n_phased st') ∧
    prev_block_name st' = block_name ∧ prev_record st' = Some r ∧
    n_records st' = S (n_records st) ∧
    is_transition st block_name r = Done transition ∧
    if transition : bool then
      close_block st = Done (gtf st') ∧
      block_start st' = (if block_name is Some _ then Some (start r) else block_start st)
    else gtf st' = gtf st ∧ block_start st' = block_start st.
Proof.
  intros H. destruct (step_samples _ _ _ H) as [call Hs].
  unfold step in H. rewrite Hs in H. simpl in H.
  bind_inv H u1 Halt. apply py_assert_Done, negb_true_iff, andb_false_iff in Halt.
  bind_inv H u2 Hhet. apply py_assert_Done, negb_true_iff, andb_false_iff in Hhet.
  bind_inv H tagged Htag. destruct tagged as [[block_name blocks'] n_phased'].
  bind_inv H transition Htr.
  bind_inv H closed Hclose. destruct closed as [gtf' block_start'].
  injection H as <-. simpl.
  exists call, block_name, transition. split_and!; try done.
  - intros Hlt. destruct Halt as [Hf|Hf].
    + by rewrite bool_decide_eq_true_2 in Hf.
    + apply bool_decide_eq_false in Hf. by apply eq_None_not_Some.
  - intros Hhom. destruct Hhet as [Hf|Hf].
    + by rewrite Hhom in Hf.
    + apply bool_decide_eq_false in Hf. by apply eq_None_not_Some.
  - destruct transition.
    + bind_inv Hclose g Hg. by injection Hclose as <- <-.
    + by injection Hclose as <- <-.
Qed.

Lemma count_incr_mono c key key' : count c key' ≤ count (counter_incr key c) key'.
Proof.
  unfold count, counter_incr. destruct (decide (key = key')) as [->|Hne].
  - rewrite lookup_insert_eq. simpl. lia.
  - by rewrite lookup_insert_ne.
Qed.

Lemma count_incr_self c key : 1 ≤ count (counter_incr key c) key.
Proof. unfold count, counter_incr. rewrite lookup_insert_eq. simpl. lia. Qed.

Lemma tag_record_Done st r call block_name blocks' n_phased' :
  tag_record st r call = Done (block_name, blocks', n_phased') →
  match HP call with
  | None => block_name = None ∧ blocks' = blocks st ∧ n_phased' = n_phased st
  | Some hp =>
      ∃ hp0 hp1, hp = [hp0; hp1] ∧ block_name = Some (split_head hp0) ∧
        blocks' = counter_incr (CHROM r, split_head hp0) (blocks st) ∧
        n_phased' = S (n_phased st)
  end.
Proof.
  unfold tag_record. destruct (HP call) as [hp|]; simpl.
  - intros H. bind_inv H u Hlen. apply py_assert_Done, bool_decide_eq_true in Hlen.
    destruct hp as [|hp0 [|hp1 [|? ?]]]; simplify_eq/=.
    injection H as <- <- <-. by exists hp0, hp1.
  - by intros [= <- <- <-].
Qed.

Lemma tag_record_mono st r call block_name blocks' n_phased' key :
  tag_record st r call = Done (block_name, blocks', n_phased') →
  count (blocks st) key ≤ count blocks' key.
Proof.
  intros H%tag_record_Done. destruct (HP call).
  - destruct H as (? & ? & _ & _ & -> & _). apply count_incr_mono.
  - by destruct H as (_ & -> & _).
Qed.

Lemma tag_record_name st r call name blocks' n_phased' :
  tag_record st r call = Done (Some name, blocks', n_phased') →
  1 ≤ count blocks' (CHROM r, name).
Proof.
  intros H%tag_record_Done. destruct (HP call).
  - destruct H as (? & ? & _ & [= ->] & -> & _). apply count_incr_self.
  - by destruct H as ([=] & _).
Qed.

Lemma hp_Inv_init gtfpath : Inv (init gtfpath).
Proof.
  split; simpl; [done|].
  intros file line Hf Hin. destruct gtfpath; simplify_eq. by apply elem_of_nil in Hin.
Qed.

Lemma close_block_Done st gtf' :
  close_block st = Done gtf' →
  match prev_block_name st, gtf st with
  | Some name, Some file =>
      ∃ prev bs, prev_record st = Some prev ∧ block_start st = Some bs ∧
        (bs < start prev + 1)%Z ∧
        gtf' = Some (file ++ [ {| seqname := CHROM prev; source := "Phasing";
                                  feature := "exon"; gtf_start := bs + 1;
                                  gtf_stop := start prev + 1; score := ".";
                                  strand := "+"; frame := ".";
                                  attributes := gtf_attributes name |} ])
  | _, _ => gtf' = gtf st
  end.
Proof.
  unfold close_block. destruct (prev_block_name st) as [name|]; [|by intros [= <-]].
  destruct (gtf st) as [file|]; [|by intros [= <-]].
  intros H. bind_inv H prev Hp. apply getattr_Done in Hp.
  bind_inv H bs Hbs. apply read_local_Done in Hbs.
  bind_inv H file' Hw. injection H as <-.
  unfold GtfWriter_write in Hw. bind_inv Hw u Hlt. injection Hw as <-.
  apply py_assert_Done, bool_decide_eq_true in Hlt. eauto 10.
Qed.

Lemma is_transition_false st block_name r :
  is_transition st block_name r = Done false → prev_block_name st = block_name.
Proof.
  unfold is_transition. case_bool_decide as Hne; [done|].
  intros _. by destruct (decide (prev_block_name st = block_name)).
Qed.

Lemma hp_step_Inv st r st' : step st r = Done st' → Inv st → Inv st'.
Proof.
  intros (call & block_name & transition & Hs & _ & _ & Htag & Hname & Hprev
          & _ & Htr & Hrest)%step_Done [Hopen Hwritten].
  split.
  - intros name Hn. rewrite Hn in Hname. subst block_name.
    exists r. rewrite Hprev.
    pose proof (tag_record_name _ _ _ _ _ _ Htag) as Hcount.
    destruct transition.
    + destruct Hrest as [_ ->]. eauto.
    + destruct Hrest as [_ ->]. apply is_transition_false in Htr.
      destruct (Hopen _ Htr) as (? & bs & _ & -> & _). eauto.
  - intros file line Hfile Hin.
    assert (∀ key, count (blocks st) key ≤ count (blocks st') key) as Hmono
      by (intros key; eapply tag_record_mono, Htag).
    assert (∀ file0, gtf st = Some file0 → line ∈ file0 →
        (gtf_start line - 1 < gtf_stop line)%Z ∧
        ∃ name, attributes line = gtf_attributes name ∧
          1 ≤ count (blocks st') (seqname line, name)) as Hold.
    { intros file0 Hf0 Hin0. destruct (Hwritten _ _ Hf0 Hin0) as (? & name & ? & ?).
      split; [done|]. exists name. split; [done|]. etrans; [done|apply Hmono]. }
    destruct transition.
    + destruct Hrest as [Hclose%close_block_Done _].
      destruct (prev_block_name st) as [name|] eqn:Hpn; [|apply (Hold file); congruence].
      destruct (gtf st) as [file0|] eqn:Hg; [|congruence].
      destruct Hclose as (prev & bs & Hp & Hbs & Hlt & Heq).
      rewrite Hfile in Heq. injection Heq as ->.
      apply elem_of_app in Hin as [Hin|Hin%list_elem_of_singleton]; [by apply (Hold file0)|].
      subst line. simpl. split; [lia|]. exists name. split; [done|].
      destruct (Hopen _ eq_refl) as (prev' & _ & Hp' & _ & Hc). simplify_eq.
      etrans; [done|apply Hmono].
    + destruct Hrest as [Hg _]. apply (Hold file); congruence.
Qed.

Lemma hp_loop_Inv st rs st' err : loop st rs = (st', err) → Inv st → Inv st'.
Proof.
  revert st. induction rs as [|r rs IH]; intros st; simpl.
  - by intros [= <- <-].
  - destruct (step st r) as [st1|e] eqn:Hstep.
    + intros Hl Hi. eapply IH; [done|]. by eapply hp_step_Inv.
    + by intros [= <- <-].
Qed.

Lemma parse_hp_tags_final gtfpath rs :
  final (parse_hp_tags gtfpath rs) = (loop (init gtfpath) rs).1 ∧
  gtf_file (parse_hp_tags gtfpath rs) = gtf (loop (init gtfpath) rs).1.
Proof.
  unfold parse_hp_tags. destruct (loop (init gtfpath) rs) as [st [e|]]; [done|].
  by destruct (finalize st).
Qed.

Lemma loop_snoc st rs r st' :
  loop st (rs ++ [r]) = (st', None) ↔
  ∃ st0, loop st rs = (st0, None) ∧ step st0 r = Done st'.
Proof.
  rewrite hp_loop_app. destruct (loop st rs) as [st0 [e|]]; simpl.
  - split; [done|]. by intros (? & [=] & _).
  - destruct (step st0 r) as [st1|e] eqn:Hstep; split.
    + intros [= <-]. eauto.
    + intros (? & [= <-] & Hs). congruence.
    + done.
    + intros (? & [= <-] & Hs). congruence.
Qed.

(** A record that raises ends the run in the state reached before it. *)
Lemma hp_loop_stops st pre r post st0 e :
  loop st pre = (st0, None) → step st0 r = Raised e →
  loop st (pre ++ r :: post) = (st0, Some e).
Proof. intros Hpre Hstep. rewrite hp_loop_app, Hpre. simpl. by rewrite Hstep. Qed.

Lemma parse_hp_tags_stops gtfpath rs st e :
  loop (init gtfpath) rs = (st, Some e) →
  parse_hp_tags gtfpath rs
  = {| gtf_file := gtf st; stderr := []; error := Some e; final := st |}.
Proof. unfold parse_hp_tags. by intros ->. Qed.

Lemma step_gtf_Some st r st' :
  step st r = Done st' → is_Some (gtf st) → is_Some (gtf st').
Proof.
  intros (? & ? & transition & _ & _ & _ & _ & _ & _ & _ & _ & Hrest)%step_Done Hg.
  destruct transition.
  - destruct Hrest as [Hclose%close_block_Done _].
    destruct (prev_block_name st), (gtf st); try congruence.
    by destruct Hclose as (? & ? & _ & _ & _ & ->).
  - destruct Hrest as [Heq _]. by rewrite Heq.
Qed.

Lemma loop_gtf_Some st rs st' err :
  loop st rs = (st', err) → is_Some (gtf st) → is_Some (gtf st').
Proof.
  revert st. induction rs as [|r rs IH]; intros st; simpl.
  - by intros [= <- <-].
  - destruct (step st r) as [st1|e] eqn:Hstep.
    + intros Hl Hg. eapply IH; [done|]. by eapply step_gtf_Some.
    + by intros [= <- <-].
Qed.

(** The state a successfully processed tagged record leaves behind. *)
Lemma step_tagged_Done st r st' :
  step st r = Done st' → carries_tag r →
  ∃ name, prev_block_name st' = Some name ∧ prev_record st' = Some r.
Proof.
  intros (call & block_name & ? & Hs & _ & _ & Htag%tag_record_Done & Hname & Hprev & _)
         %step_Done (call' & Hc & Hhp).
  unfold first_call in Hc. rewrite Hs in Hc. simplify_eq/=.
  destruct Hhp as [hp Hhp]. rewrite Hhp in Htag.
  destruct Htag as (hp0 & hp1 & _ & -> & _). eauto.
Qed.

(** Line 166 onwards for a well-formed tagged record that follows an
    open block on another chromosome. *)
Lemma step_chromosome_change st prev name bs file r call hp0 hp1 :
  prev_record st = Some prev → prev_block_name st = Some name →
  block_start st = Some bs → gtf st = Some file →
  samples r = [call] → HP call = Some [hp0; hp1] → is_het call = true →
  length (ALT r) ≤ 1 → CHROM prev ≠ CHROM r → (bs ≤ start prev)%Z →
  ∃ st', step st r = Done st' ∧
    gtf st' = Some (file ++ [ {| seqname := CHROM prev; source := "Phasing";
                                 feature := "exon"; gtf_start := bs + 1;
                                 gtf_stop := start prev + 1; score := ".";
                                 strand := "+"; frame := ".";
                                 attributes := gtf_attributes name |} ]) ∧
    block_start st' = Some (start r) ∧
    prev_block_name st' = Some (split_head hp0) ∧ prev_record st' = Some r.
Proof.
  intros Hprev Hname Hbs Hgtf Hs Hhp Hhet Halt Hchrom Hle.
  unfold step. rewrite Hs. simpl.
  rewrite (bool_decide_eq_false_2 (1 < length (ALT r))) by lia. simpl.
  rewrite Hhet. simpl.
  unfold tag_record. rewrite Hhp. simpl.
  assert (is_transition st (Some (split_head hp0)) r = Done true) as ->.
  { unfold is_transition. case_bool_decide; [done|].
    rewrite Hprev. simpl. by rewrite bool_decide_eq_true_2. }
  simpl. unfold close_block. rewrite Hname, Hgtf, Hprev, Hbs. simpl.
  unfold GtfWriter_write. rewrite bool_decide_eq_true_2 by lia. simpl.
  eexists. split; [done|]. by simpl.
Qed.

End HpFacts.

(** ** Adjacency (pipe) mode *)

Module PipeFacts.
Import PipeNotation PipeProps.

Lemma pipe_loop_app st l1 l2 :
  loop st (l1 ++ l2) =
    match loop st l1 with
    | (st', None) => loop st' l2
    | (st', Some e) => (st', Some e)
    end.
Proof.
  revert st. induction l1 as [|r l1 IH]; intros st; simpl; [done|].
  destruct (step st r); [apply IH | done].
Qed.

Lemma step_skipped st r :
  skipped r → ∃ st', step st r = Done st' ∧ n st' = n st.
Proof.
  unfold step. intros [Hsnp|[Halt|(call & Hs & Hhet)]].
  - rewrite Hsnp. simpl. eauto.
  - destruct (is_snp r); simpl; [|by eauto].
    rewrite bool_decide_eq_true_2 by done. eauto.
  - destruct (is_snp r); simpl; [|by eauto].
    case_bool_decide; [by eauto|].
    rewrite Hs. simpl. rewrite Hhet. simpl. eauto.
Qed.

Lemma step_examined st r call :
  examined r call →
  step st r = (st1 ← on_call (bind_record st r) call; mret (advance st1 r)).
Proof.
  intros (Hsnp & Halt & Hs & Hhet). unfold step.
  rewrite Hsnp. simpl. rewrite bool_decide_eq_false_2 by lia.
  rewrite Hs. simpl. by rewrite Hhet.
Qed.

(** Every record is passed over, examined, or stopped at for its
    samples. *)
Lemma step_cases st r :
  skipped r ∨ (∃ call, examined r call) ∨
  step st r = Raised IndexError ∨ step st r = Raised (AssertionError "").
Proof.
  destruct (is_snp r) eqn:Hsnp; [|by left; left].
  destruct (decide (1 < length (ALT r))) as [Halt|Halt]; [by left; right; left|].
  destruct (samples r) as [|call [|call' l]] eqn:Hs.
  - right; right; left. unfold step.
    rewrite Hsnp, Hs. simpl. by rewrite bool_decide_eq_false_2.
  - destruct (is_het call) eqn:Hhet.
    + right; left. exists call. unfold examined. split_and!; [done|lia|done|done].
    + left; right; right. eauto.
  - right; right; right. unfold step.
    rewrite Hsnp, Hs. simpl. by rewrite bool_decide_eq_false_2.
Qed.

Lemma end_of_block_Done st bs st' :
  end_of_block st bs = Done st' →
  ∃ ps record nv,
    prev_start st = Some ps ∧ (bs < ps)%Z ∧ record_var st = Some record ∧
    n_variants st = Some nv ∧
    n st' = n st ∧ block_start st' = block_start st ∧
    singletons st' = singletons st ∧
    block_lengths st' = block_lengths st ++ [(ps - bs + 1)%Z] ∧
    prev_start st' = prev_start st ∧ n_variants st' = n_variants st ∧
    stdout st' = stdout st ++ [ {| chrom := CHROM record; bstart := bs;
                                   bstop := ps + 1; Len := ps - bs + 1; N := nv |} ].
Proof.
  unfold end_of_block. intros H.
  bind_inv H ps Hps. apply read_local_Done in Hps.
  bind_inv H u Hlt. apply py_assert_Done, bool_decide_eq_true in Hlt.
  bind_inv H record Hr. apply read_local_Done in Hr.
  bind_inv H nv Hnv. apply read_local_Done in Hnv.
  injection H as <-. simpl. exists ps, record, nv. by split_and!.
Qed.

Lemma pipe_Inv_init : Inv init.
Proof.
  split; simpl; try done.
  by intros b Hb%elem_of_nil.
Qed.

Lemma Inv_bind_record st r : Inv st → Inv (bind_record st r).
Proof. by intros [? ? ? ?]. Qed.

Lemma Inv_warn st : Inv st → Inv (warn st).
Proof. by intros [? ? ? ?]. Qed.

Lemma on_call_Inv st call r st1 :
  on_call st call = Done st1 → Inv st → Inv (advance st1 r).
Proof.
  intros H [Hopen Hout Hsum Hlen]. unfold on_call in H.
  unfold open_variants, open_blocks in Hsum.
  destruct (phased call).
  - unfold on_phased in H. bind_inv H u Hn.
    destruct (block_start st) as [bs|] eqn:Hbs.
    + bind_inv H nv Hnv. apply read_local_Done in Hnv. injection H as <-.
      rewrite Hnv in Hsum. simpl in Hsum.
      split; unfold open_variants, open_blocks; simpl; rewrite ?Hbs; simpl; try done.
      * intros _. destruct Hopen as (nv' & ? & ?); [done|]. simplify_eq.
        exists (nv + 1). split; [done|lia].
      * lia.
    + bind_inv H ps Hps. injection H as <-.
      split; unfold open_variants, open_blocks; simpl; try done.
      * intros _. by exists 2.
      * lia.
  - unfold on_unphased in H. destruct (block_start st) as [bs|] eqn:Hbs.
    + bind_inv H st2 Hend. injection H as <-.
      apply end_of_block_Done in Hend
        as (ps & record & nv & Hps & Hlt & Hr & Hnv & Hn & _ & Hsg & Hbl & _ & _ & Hso).
      destruct Hopen as (nv' & ? & Hnv2); [done|]. simplify_eq.
      rewrite Hnv in Hsum. simpl in Hsum.
      split; unfold open_variants, open_blocks; simpl.
      * by intros [? [=]].
      * rewrite Hso. intros b [Hb|Hb%list_elem_of_singleton]%elem_of_app; [by apply Hout|].
        subst b. simpl. split; [lia|done].
      * rewrite Hso, sum_list_with_app. simpl. lia.
      * rewrite Hbl, Hso, !length_app. simpl. lia.
    + injection H as <-.
      split; unfold open_variants, open_blocks; simpl; try done.
      lia.
Qed.

Lemma step_Done_cases st r st' :
  step st r = Done st' →
  (skipped r ∧ n st' = n st) ∨
  (∃ call st1, examined r call ∧ on_call (bind_record st r) call = Done st1 ∧
     st' = advance st1 r).
Proof.
  intros H. destruct (step_cases st r) as [Hsk|[[call Hex]|[Hr|Hr]]].
  - left. split; [done|]. destruct (step_skipped st r Hsk) as (? & ? & ?). congruence.
  - right. rewrite (step_examined _ _ _ Hex) in H. bind_inv H st1 H1.
    injection H as <-. eauto.
  - congruence.
  - congruence.
Qed.

Lemma pipe_step_Inv st r st' : step st r = Done st' → Inv st → Inv st'.
Proof.
  intros H Hi. unfold step in H.
  destruct (is_snp r); simpl in H; [|injection H as <-; by apply Inv_bind_record].
  case_bool_decide; [injection H as <-; by apply Inv_warn, Inv_bind_record|].
  bind_inv H call Hc. bind_inv H u Hu.
  destruct (is_het call); simpl in H; [|injection H as <-; by apply Inv_bind_record].
  bind_inv H st1 H1. injection H as <-.
  eapply (on_call_Inv _ call); [done|]. by apply Inv_bind_record.
Qed.

Lemma pipe_loop_Inv st rs st' err : loop st rs = (st', err) → Inv st → Inv st'.
Proof.
  revert st. induction rs as [|r rs IH]; intros st; simpl.
  - by intros [= <- <-].
  - destruct (step st r) as [st1|e] eqn:Hstep.
    + intros Hl Hi. eapply IH; [done|]. by eapply pipe_step_Inv.
    + by intros [= <- <-].
Qed.

Lemma pipe_loop_stops st pre r post st0 e :
  loop st pre = (st0, None) → step st0 r = Raised e →
  loop st (pre ++ r :: post) = (st0, Some e).
Proof. intros Hpre Hstep. rewrite pipe_loop_app, Hpre. simpl. by rewrite Hstep. Qed.

(** Line 76 for a single-ALT SNP with several samples. *)
Lemma pipe_step_multi_sample st r :
  is_snp r = true → length (ALT r) ≤ 1 → 1 < length (samples r) →
  step st r = Raised (AssertionError "").
Proof.
  intros Hsnp Halt Hlen. unfold step. rewrite Hsnp. simpl.
  rewrite bool_decide_eq_false_2 by lia.
  destruct (samples r) as [|call l]; simpl in *; [lia|].
  rewrite bool_decide_eq_false_2 by lia. done.
Qed.

(** Lines 116-120 keep what was printed and add the open block. *)
Lemma flush_Done st st' :
  flush st = Done st' → Inv st →
  n st' = n st ∧ singletons st' = singletons st ∧
  (∀ b, b ∈ stdout st' → (bstart b < bstop b)%Z ∧ 2 ≤ N b) ∧
  sum_list_with N (stdout st') + singletons st' = n st' + open_blocks st ∧
  length (stdout st') = length (stdout st) + open_blocks st.
Proof.
  intros H [Hopen Hout Hsum Hlen]. unfold flush in H.
  unfold open_variants, open_blocks in *.
  destruct (block_start st) as [bs|] eqn:Hbs.
  - apply end_of_block_Done in H
      as (ps & record & nv & Hps & Hlt & Hr & Hnv & Hn & _ & Hsg & Hbl & _ & _ & Hso).
    destruct Hopen as (nv' & ? & Hnv2); [done|]. simplify_eq.
    rewrite Hnv in Hsum. simpl in Hsum.
    rewrite Hn, Hsg, Hso. split_and!; try done.
    + intros b [Hb|Hb%list_elem_of_singleton]%elem_of_app; [by apply Hout|].
      subst b. simpl. split; [lia|done].
    + rewrite sum_list_with_app. simpl. lia.
    + rewrite length_app. simpl. lia.
  - injection H as <-. split_and!; try done; lia.
Qed.

(** The assertion of line 94 is the only source of its message. *)
Lemma end_of_block_not_first st bs :
  end_of_block st bs ≠ Raised (AssertionError first_phased_msg).
Proof.
  unfold end_of_block.
  destruct (prev_start st) as [ps|]; simpl; [|done].
  case_bool_decide; simpl; [|done].
  destruct (record_var st); simpl; [|done].
  by destruct (n_variants st).
Qed.

Lemma on_call_first st call :
  on_call st call = Raised (AssertionError first_phased_msg) ↔
  phased call = true ∧ n st = 0.
Proof.
  unfold on_call. destruct (phased call).
  - unfold on_phased. destruct (decide (0 < n st)) as [Hn|Hn].
    + rewrite bool_decide_eq_true_2 by done. simpl. split; [|lia].
      destruct (block_start st).
      * by destruct (n_variants st).
      * by destruct (prev_start st).
    + rewrite bool_decide_eq_false_2 by done. simpl. split; [|done].
      intros _. split; [done|lia].
  - split; [|by intros [[=] _]].
    unfold on_unphased. destruct (block_start st) as [bs|]; [|done].
    pose proof (end_of_block_not_first st bs) as Hne.
    destruct (end_of_block st bs); [done|]. simpl. congruence.
Qed.

Lemma step_first st r :
  step st r = Raised (AssertionError first_phased_msg) ↔
  n st = 0 ∧ ∃ call, examined r call ∧ phased call = true.
Proof.
  split.
  - intros H. destruct (step_cases st r) as [Hsk|[[call Hex]|[Hr|Hr]]].
    + destruct (step_skipped st r Hsk) as (? & ? & _). congruence.
    + rewrite (step_examined _ _ _ Hex) in H.
      destruct (on_call (bind_record st r) call) as [st1|e] eqn:Hc; [done|].
      simpl in H. injection H as ->. apply on_call_first in Hc as [? ?]. eauto.
    + congruence.
    + rewrite Hr in H. done.
  - intros (Hn & call & Hex & Hph). rewrite (step_examined _ _ _ Hex).
    assert (on_call (bind_record st r) call = Raised (AssertionError first_phased_msg))
      as -> by (by apply on_call_first).
    done.
Qed.

Lemma step_n_zero st r st' :
  step st r = Done st' → n st' = 0 → skipped r ∧ n st = 0.
Proof.
  intros [[? ?]|(call & st1 & _ & _ & ->)]%step_Done_cases Hn.
  - split; [done|congruence].
  - done.
Qed.

Lemma loop_first_inv rs : ∀ st st',
  loop st rs = (st', Some (AssertionError first_phased_msg)) →
  n st = 0 ∧
  ∃ pre r call post, rs = pre ++ r :: post ∧ Forall skipped pre ∧
    examined r call ∧ phased call = true.
Proof.
  induction rs as [|r rs IH]; intros st st'; simpl; [done|].
  destruct (step st r) as [st1|e] eqn:Hstep.
  - intros (Hn1 & pre & r' & call & post & -> & Hpre & Hex & Hph)%IH.
    destruct (step_n_zero _ _ _ Hstep Hn1) as [Hsk Hn]. split; [done|].
    exists (r :: pre), r', call, post. split_and!; try done. by constructor.
  - intros [= <- ->]. apply step_first in Hstep as (Hn & call & Hex & Hph).
    split; [done|]. exists [], r, call, rs. by split_and!.
Qed.

Lemma loop_first pre : ∀ st r call post,
  n st = 0 → Forall skipped pre → examined r call → phased call = true →
  ∃ st', loop st (pre ++ r :: post) = (st', Some (AssertionError first_phased_msg)).
Proof.
  induction pre as [|r0 pre IH]; intros st r call post Hn Hpre Hex Hph; simpl.
  - assert (step st r = Raised (AssertionError first_phased_msg)) as ->
      by (apply step_first; eauto).
    eauto.
  - apply Forall_cons in Hpre as [Hsk Hpre].
    destruct (step_skipped st r0 Hsk) as (st1 & -> & Hn1).
    eapply IH; [congruence|done..].
Qed.

Lemma flush_not_first st : flush st ≠ Raised (AssertionError first_phased_msg).
Proof.
  unfold flush. destruct (block_start st); [apply end_of_block_not_first|done].
Qed.

(** The statistics are printed exactly when the loop and the final
    block close went through. *)
Lemma parse_pipe_notation_reached rs :
  stderr (parse_pipe_notation rs) ≠ [] →
  ∃ st st', loop init rs = (st, None) ∧ flush st = Done st' ∧
    out (parse_pipe_notation rs) = stdout st' ∧ final (parse_pipe_notation rs) = st'.
Proof.
  unfold parse_pipe_notation. destruct (loop init rs) as [st [e|]]; [done|].
  destruct (flush st) as [st'|e] eqn:Hflush; [|done]. simpl.
  intros _. by exists st, st'.
Qed.

End PipeFacts.

(** ** The reported median *)

Module MedianFacts.
Import HpTags MedianProps.

Lemma below_Permutation m l1 l2 : l1 ≡ₚ l2 → below m l1 = below m l2.
Proof. unfold below. by intros ->. Qed.

Lemma at_most_Permutation m l1 l2 : l1 ≡ₚ l2 → at_most m l1 = at_most m l2.
Proof. unfold at_most. by intros ->. Qed.

Lemma below_none m l : Forall (Nat.le m) l → below m l = 0.
Proof.
  unfold below. induction 1 as [|x l Hx _ IH]; [done|].
  rewrite filter_cons_False; [done|]. unfold Nat.le in Hx. lia.
Qed.

(** In a sorted list the element at index [k] has at most [k] elements
    strictly below it and more than [k] at or below it. *)
Lemma sorted_rank (s : list nat) (k m : nat) :
  StronglySorted Nat.le s → s !! k = Some m →
  below m s ≤ k ∧ k < at_most m s.
Proof.
  intros Hs. revert k. induction Hs as [|x s Hs IH Hx]; intros k; [done|].
  destruct k as [|k]; simpl.
  - intros [= ->]. unfold below, at_most.
    rewrite (filter_cons_False (λ y, y < m)) by lia.
    rewrite (filter_cons_True (λ y, y ≤ m)) by lia.
    fold (below m s). rewrite below_none by done. simpl. lia.
  - intros Hk. destruct (IH _ Hk) as [Hb Ha].
    assert (x ≤ m) as Hxm by apply (Forall_lookup_1 _ _ _ _ Hx Hk).
    unfold below, at_most in *.
    rewrite (filter_cons_True (λ y, y ≤ m)) by done.
    rewrite (filter_cons (λ y, y < m)). case_decide; simpl; lia.
Qed.

Lemma size_values (c : gmap (string * string) nat) : length (values c) = size c.
Proof. unfold values. by rewrite length_fmap, length_map_to_list. Qed.

Lemma reported_median_rank (c : gmap (string * string) nat) :
  c ≠ ∅ →
  ∃ m, reported_median c = Done m ∧ m ∈ values c ∧
       below m (values c) ≤ size c / 2 ∧ size c / 2 < at_most m (values c).
Proof.
  intros Hne. apply map_size_non_empty_iff in Hne.
  unfold reported_median, index.
  pose proof (merge_sort_Permutation Nat.le (values c)) as Hperm.
  destruct (merge_sort Nat.le (values c) !! (size c / 2)) as [m|] eqn:Hm.
  - exists m. split; [done|].
    destruct (sorted_rank _ _ _ (StronglySorted_merge_sort Nat.le (values c)) Hm)
      as [Hb Ha].
    rewrite (below_Permutation _ _ _ Hperm) in Hb.
    rewrite (at_most_Permutation _ _ _ Hperm) in Ha.
    split_and!; [|done|done].
    rewrite <-Hperm. by eapply list_elem_of_lookup_2.
  - apply lookup_ge_None in Hm. rewrite Hperm, size_values in Hm.
    pose proof (Nat.div_lt (size c) 2). lia.
Qed.

End MedianFacts.

(** * The claims *)

(** C1.  The tag-based run has no end-of-stream close: on the stream
    made of the single tagged record [chr1:10 HP=42-1,42-2], with a GTF
    writer, the run ends without error, the block [42] is counted and
    still open, and nothing has been written to the GTF file.  (The
    adjacency path closes its open block after the loop, lines 116-120.) *)
Theorem hp_tags_last_block_not_written :
  let res := HpTags.parse_hp_tags true
               [Samples.snp "chr1" 10 (Samples.tagged "42-1" "42-2")] in
  HpTags.error res = None ∧
  HpTags.gtf_file res = Some [] ∧
  HpTags.prev_block_name (HpTags.final res) = Some "42"%string ∧
  HpTags.block_start (HpTags.final res) = Some 10%Z ∧
  HpProps.count (HpTags.blocks (HpTags.final res)) ("chr1"%string, "42"%string) = 1 ∧
  HpTags.NoOfPhasedBlocks 1 ∈ HpTags.stderr res.
Proof. vm_compute. split_and!; try done. set_solver. Qed.

(** C2.  In tag-based mode a stream whose first record carries no HP
    tag fails at that record: nothing is written, no statistics are
    printed, no block is opened or counted; when the record has its one
    sample, the failure is the read of [prev_record.CHROM] on [None]. *)
Theorem hp_tags_untagged_first_record gtfpath r rest :
  (∀ call, HpProps.first_call r = Some call → HP call = None) →
  let res := HpTags.parse_hp_tags gtfpath (r :: rest) in
  (∃ e, HpTags.error res = Some e) ∧
  (length (samples r) = 1 → HpTags.error res = Some (AttributeError "CHROM")) ∧
  HpTags.stderr res = [] ∧
  HpTags.gtf_file res = HpTags.gtf (HpTags.init gtfpath) ∧
  HpTags.final res = HpTags.init gtfpath.
Proof.
  intros Hno.
  assert (∃ e, HpTags.step (HpTags.init gtfpath) r = Raised e ∧
               (length (samples r) = 1 → e = AttributeError "CHROM")) as (e & Hstep & He).
  { destruct (decide (length (samples r) = 1)) as [Hlen|Hlen].
    - exists (AttributeError "CHROM"). split; [|done].
      unfold HpProps.first_call in Hno.
      destruct (samples r) as [|call [|? ?]] eqn:Hs; simplify_eq/=.
      unfold HpTags.step. rewrite Hs. simpl.
      unfold HpTags.hasattr_HP, HpTags.tag_record. rewrite (Hno call eq_refl). simpl.
      by rewrite !andb_false_r.
    - exists (AssertionError ""). split; [|done]. by apply HpFacts.hp_step_multi_sample. }
  simpl. unfold HpTags.parse_hp_tags. simpl. rewrite Hstep. simpl.
  split_and!; try done; [by eauto|]. intros Hlen. by rewrite He.
Qed.

Lemma hp_tags_untagged_first_record_witness :
  let r := Samples.snp "chr1" 10 Samples.untagged in
  let res := HpTags.parse_hp_tags true
               [r; Samples.snp "chr1" 20 (Samples.tagged "7-1" "7-2")] in
  (∃ e, HpTags.error res = Some e) ∧
  (length (samples r) = 1 → HpTags.error res = Some (AttributeError "CHROM")) ∧
  HpTags.stderr res = [] ∧
  HpTags.gtf_file res = HpTags.gtf (HpTags.init true) ∧
  HpTags.final res = HpTags.init true.
Proof.
  apply (hp_tags_untagged_first_record true (Samples.snp "chr1" 10 Samples.untagged)).
  intros call [= <-]. reflexivity.
Defined.

(** C3.  With zero blocks the adjacency path does not get through its
    statistics: after the two count lines, line 129 reads the unbound
    name [blocks] and raises [NameError], on the empty stream as on any
    other that reaches it.  The tag-based path prints its four count
    lines on the empty stream and ends without error. *)
Theorem pipe_finalize_raises_NameError :
  (let res := PipeNotation.parse_pipe_notation [] in
   PipeNotation.error res = Some (NameError "blocks") ∧
   PipeNotation.stderr res
   = [PipeNotation.ConsideredVariants 0; PipeNotation.Blocks 0]) ∧
  (∀ rs, ∃ e, PipeNotation.error (PipeNotation.parse_pipe_notation rs) = Some e) ∧
  (let res := HpTags.parse_hp_tags false [] in
   HpTags.error res = None ∧
   HpTags.stderr res
   = [HpTags.VariantsInVCF 0; HpTags.UsableVariants 0; HpTags.BlocksDump ∅;
      HpTags.NoOfPhasedBlocks 0]).
Proof.
  split_and!; try done.
  intros rs. unfold PipeNotation.parse_pipe_notation.
  destruct (PipeNotation.loop PipeNotation.init rs) as [st [e|]]; [by eauto|].
  destruct (PipeNotation.flush st); simpl; eauto.
Qed.

(** C4, as stated, fails: for block sizes 2, 2 and 4 the run prints the
    median 2, while the walk of the claim (middle = ceil((1 + 8) / 2)
    = 5, running sums 4 and 8) gives 4.  ([frequency_median], which the
    statistics do not call, gives 2 on the same sizes.) *)
Lemma reported_median_differs_from_weighted_walk :
  let res := HpTags.parse_hp_tags false Samples.median_stream in
  HpTags.error res = None ∧
  HpTags.stderr res !! 5 = Some (HpTags.MedianBlockSize 2) ∧
  merge_sort Nat.le (HpTags.values (HpTags.blocks (HpTags.final res))) = [2; 2; 4] ∧
  SpecMedian.spec_median (HpTags.values (HpTags.blocks (HpTags.final res))) = Some 4 ∧
  frequency_median {[ 2 := 2; 4 := 1 ]} = Done 2.
Proof. vm_compute. done. Qed.

(** C4, amended.  For every non-empty counter of blocks the statistics
    end without error and print as median the block size [m] found at
    index [len(blocks) // 2] of the sizes sorted ascending: at most
    [len(blocks) // 2] sizes lie strictly below [m], and more than
    [len(blocks) // 2] lie at or below it (the upper of the two middle
    values when the number of blocks is even).  For sizes 3, 3 and 5 the
    median is 3. *)
Theorem reported_median_is_upper_middle (st : HpTags.state) :
  HpTags.blocks st ≠ ∅ →
  (∃ largest m smallest,
     HpTags.finalize st
     = ([ HpTags.VariantsInVCF (HpTags.n_records st);
          HpTags.UsableVariants (HpTags.n_phased st);
          HpTags.BlocksDump (HpTags.blocks st);
          HpTags.NoOfPhasedBlocks (size (HpTags.blocks st));
          HpTags.LargestBlock largest; HpTags.MedianBlockSize m;
          HpTags.SmallestBlock smallest ], None) ∧
     HpTags.reported_median (HpTags.blocks st) = Done m ∧
     m ∈ HpTags.values (HpTags.blocks st) ∧
     MedianProps.below m (HpTags.values (HpTags.blocks st)) ≤ size (HpTags.blocks st) / 2 ∧
     size (HpTags.blocks st) / 2 < MedianProps.at_most m (HpTags.values (HpTags.blocks st))) ∧
  HpTags.reported_median Samples.blocks_3_3_5 = Done 3.
Proof.
  intros Hne. split; [|by vm_compute].
  destruct (MedianFacts.reported_median_rank _ Hne) as (m & Hm & Hin & Hb & Ha).
  unfold HpTags.finalize. rewrite bool_decide_eq_true_2 by done. rewrite Hm.
  destruct (HpTags.values (HpTags.blocks st)) as [|x l] eqn:Hv.
  { by apply elem_of_nil in Hin. }
  simpl. eauto 10.
Qed.

Lemma reported_median_is_upper_middle_witness :
  HpTags.blocks (HpTags.parse_hp_tags false Samples.median_stream).(HpTags.final) ≠ ∅ ∧
  ∃ m, HpTags.reported_median
         (HpTags.blocks (HpTags.parse_hp_tags false Samples.median_stream).(HpTags.final))
       = Done m.
Proof.
  assert (HpTags.blocks (HpTags.parse_hp_tags false Samples.median_stream).(HpTags.final) ≠ ∅)
    as Hne by (by vm_compute).
  split; [exact Hne|].
  destruct (reported_median_is_upper_middle _ Hne) as [(_ & m & _ & _ & Hm & _) _].
  by exists m.
Defined.

(** C5, as stated, fails in tag-based mode: a tagged record followed by
    a record of another group is written out as a block of its own,
    with a variant count of 1. *)
Lemma hp_tags_block_of_one_variant :
  let res := HpTags.parse_hp_tags true
               [ Samples.snp "chr1" 10 (Samples.tagged "42-1" "42-2");
                 Samples.snp "chr1" 20 (Samples.tagged "43-1" "43-2") ] in
  HpTags.error res = None ∧
  HpTags.gtf_file res
  = Some [ {| seqname := "chr1"; source := "Phasing"; feature := "exon";
              gtf_start := 11; gtf_stop := 11; score := "."; strand := "+";
              frame := "."; attributes := gtf_attributes "42" |} ] ∧
  HpProps.count (HpTags.blocks (HpTags.final res)) ("chr1"%string, "42"%string) = 1 ∧
  ¬ 2 ≤ HpProps.count (HpTags.blocks (HpTags.final res)) ("chr1"%string, "42"%string).
Proof. vm_compute. split_and!; try done. lia. Qed.

(** C5, amended.  Every block written out satisfies start < end.  In
    adjacency mode its variant count [N] is at least 2 (singletons are
    counted, not printed); in tag-based mode the counter of its
    (chromosome, name) key is at least 1.  This holds of whatever a run
    has written, whether or not it ends with an error. *)
Theorem emitted_blocks_well_formed :
  (∀ gtfpath rs file line,
     HpTags.gtf_file (HpTags.parse_hp_tags gtfpath rs) = Some file → line ∈ file →
     (gtf_start line - 1 < gtf_stop line)%Z ∧
     ∃ name, attributes line = gtf_attributes name ∧
       1 ≤ HpProps.count (HpTags.blocks (HpTags.final (HpTags.parse_hp_tags gtfpath rs)))
                         (seqname line, name)) ∧
  (∀ rs b,
     b ∈ PipeNotation.out (PipeNotation.parse_pipe_notation rs) →
     (PipeNotation.bstart b < PipeNotation.bstop b)%Z ∧ 2 ≤ PipeNotation.N b).
Proof.
  split.
  - intros gtfpath rs file line Hfile Hin.
    destruct (HpFacts.parse_hp_tags_final gtfpath rs) as [Hfinal Hgtf].
    rewrite Hfinal. rewrite Hgtf in Hfile.
    destruct (HpTags.loop (HpTags.init gtfpath) rs) as [st err] eqn:Hloop.
    pose proof (HpFacts.hp_loop_Inv _ _ _ _ Hloop (HpFacts.hp_Inv_init gtfpath)) as Hinv.
    by apply (HpProps.inv_written _ Hinv file).
  - intros rs b. unfold PipeNotation.parse_pipe_notation.
    destruct (PipeNotation.loop PipeNotation.init rs) as [st err] eqn:Hloop.
    pose proof (PipeFacts.pipe_loop_Inv _ _ _ _ Hloop PipeFacts.pipe_Inv_init) as Hinv.
    destruct err as [e|]; simpl; [by apply (PipeProps.inv_out _ Hinv)|].
    destruct (PipeNotation.flush st) as [st'|e] eqn:Hflush; simpl.
    + destruct (PipeFacts.flush_Done _ _ Hflush Hinv) as (_ & _ & Hout & _).
      apply Hout.
    + by apply (PipeProps.inv_out _ Hinv).
Qed.

Lemma emitted_blocks_well_formed_witness :
  (∃ line, HpTags.gtf_file (HpTags.parse_hp_tags true Samples.two_groups) = Some [line] ∧
     (gtf_start line - 1 < gtf_stop line)%Z) ∧
  (∃ b, PipeNotation.out (PipeNotation.parse_pipe_notation Samples.one_run) = [b] ∧
     (PipeNotation.bstart b < PipeNotation.bstop b)%Z ∧ 2 ≤ PipeNotation.N b).
Proof.
  destruct emitted_blocks_well_formed as [Htag Hpipe]. split.
  - eexists. split; [vm_compute; reflexivity|].
    eapply (Htag true Samples.two_groups).
    + vm_compute. reflexivity.
    + apply list_elem_of_singleton. reflexivity.
  - eexists. split; [vm_compute; reflexivity|].
    apply (Hpipe Samples.one_run). vm_compute. apply list_elem_of_singleton. reflexivity.
Defined.

(** C6, as stated, fails: on an unphased record followed by a phased one
    the first record is counted as a singleton and again as the first
    variant of the block.  Two records are examined, the block has
    [N = 2] and one singleton is counted, so no count of further
    records makes the sum equal to the number examined. *)
Lemma pipe_first_of_block_counted_twice :
  let res := PipeNotation.parse_pipe_notation
               [ Samples.snp "chr1" 10 (Samples.het false);
                 Samples.snp "chr1" 20 (Samples.het true) ] in
  PipeNotation.n (PipeNotation.final res) = 2 ∧
  sum_list_with PipeNotation.N (PipeNotation.out res) = 2 ∧
  PipeNotation.singletons (PipeNotation.final res) = 1 ∧
  ¬ ∃ others : nat,
      sum_list_with PipeNotation.N (PipeNotation.out res)
      + PipeNotation.singletons (PipeNotation.final res) + others
      = PipeNotation.n (PipeNotation.final res).
Proof.
  vm_compute. split_and!; try done. intros [others H]. lia.
Qed.

(** C6, amended.  When a run in adjacency mode gets as far as its
    statistics, the variant counts of the printed blocks, the singleton
    count and the number of unphased records that closed a block add up
    to the number of examined records plus the number of printed blocks:
    the first record of each block is counted in its block and also as
    a singleton or as the record closing the block before. *)
Theorem pipe_accounting (rs : list VariantRecord) :
  let res := PipeNotation.parse_pipe_notation rs in
  PipeNotation.stderr res ≠ [] →
  sum_list_with PipeNotation.N (PipeNotation.out res)
  + PipeNotation.singletons (PipeNotation.final res)
  + PipeProps.closed_by_unphased rs
  = PipeNotation.n (PipeNotation.final res) + length (PipeNotation.out res).
Proof.
  intros res Hreached. subst res.
  destruct (PipeFacts.parse_pipe_notation_reached rs Hreached)
    as (st & st' & Hloop & Hflush & -> & ->).
  unfold PipeProps.closed_by_unphased. rewrite Hloop. simpl.
  pose proof (PipeFacts.pipe_loop_Inv _ _ _ _ Hloop PipeFacts.pipe_Inv_init) as Hinv.
  destruct (PipeFacts.flush_Done _ _ Hflush Hinv) as (_ & _ & _ & Hsum & Hlen).
  lia.
Qed.

Lemma pipe_accounting_witness :
  PipeNotation.stderr (PipeNotation.parse_pipe_notation Samples.two_runs) ≠ [] ∧
  sum_list_with PipeNotation.N (PipeNotation.out (PipeNotation.parse_pipe_notation Samples.two_runs))
  + PipeNotation.singletons (PipeNotation.final (PipeNotation.parse_pipe_notation Samples.two_runs))
  + PipeProps.closed_by_unphased Samples.two_runs
  = PipeNotation.n (PipeNotation.final (PipeNotation.parse_pipe_notation Samples.two_runs))
    + length (PipeNotation.out (PipeNotation.parse_pipe_notation Samples.two_runs)).
Proof.
  assert (PipeNotation.stderr (PipeNotation.parse_pipe_notation Samples.two_runs) ≠ [])
    as Hreached by (vm_compute; discriminate).
  split; [exact Hreached|]. exact (pipe_accounting Samples.two_runs Hreached).
Defined.

(** C7, as stated, fails: a record with two samples stops both runs
    with the assertion on [len(record.samples)]. *)
Lemma two_samples_abort_the_run :
  HpTags.error (HpTags.parse_hp_tags false
                  [Samples.two_samples "chr1" 10 (Samples.tagged "42-1" "42-2")])
  = Some (AssertionError "") ∧
  HpTags.stderr (HpTags.parse_hp_tags false
                   [Samples.two_samples "chr1" 10 (Samples.tagged "42-1" "42-2")])
  = [] ∧
  PipeNotation.error (PipeNotation.parse_pipe_notation
                        [Samples.two_samples "chr1" 10 (Samples.het false)])
  = Some (AssertionError "") ∧
  PipeNotation.stderr (PipeNotation.parse_pipe_notation
                         [Samples.two_samples "chr1" 10 (Samples.het false)])
  = [].
Proof. vm_compute. done. Qed.

(** C7, amended.  A record with more than one sample is not accepted:
    once the records before it have been processed, the run stops at it
    with an assertion failure and prints no statistics.  In tag-based
    mode this holds of every record whose sample count is not one; in
    adjacency mode of every single-ALT SNP with more than one sample
    (records passed over earlier in the iteration are not checked). *)
Theorem multi_sample_record_aborts :
  (∀ gtfpath pre r post st,
     HpTags.loop (HpTags.init gtfpath) pre = (st, None) →
     length (samples r) ≠ 1 →
     HpTags.parse_hp_tags gtfpath (pre ++ r :: post)
     = {| HpTags.gtf_file := HpTags.gtf st; HpTags.stderr := [];
          HpTags.error := Some (AssertionError ""); HpTags.final := st |}) ∧
  (∀ pre r post st,
     PipeNotation.loop PipeNotation.init pre = (st, None) →
     is_snp r = true → length (ALT r) ≤ 1 → 1 < length (samples r) →
     PipeNotation.parse_pipe_notation (pre ++ r :: post)
     = {| PipeNotation.out := PipeNotation.stdout st; PipeNotation.stderr := [];
          PipeNotation.error := Some (AssertionError ""); PipeNotation.final := st |}).
Proof.
  split.
  - intros gtfpath pre r post st Hpre Hlen.
    apply HpFacts.parse_hp_tags_stops.
    by apply HpFacts.hp_loop_stops, HpFacts.hp_step_multi_sample.
  - intros pre r post st Hpre Hsnp Halt Hlen.
    unfold PipeNotation.parse_pipe_notation.
    by rewrite (PipeFacts.pipe_loop_stops _ _ _ _ _ _ Hpre
                  (PipeFacts.pipe_step_multi_sample st r Hsnp Halt Hlen)).
Qed.

Lemma multi_sample_record_aborts_witness :
  HpTags.error
    (HpTags.parse_hp_tags true
       ([Samples.snp "chr1" 10 (Samples.tagged "42-1" "42-2")]
        ++ Samples.two_samples "chr1" 20 (Samples.tagged "42-1" "42-2") :: []))
  = Some (AssertionError "") ∧
  PipeNotation.error
    (PipeNotation.parse_pipe_notation
       ([Samples.snp "chr1" 10 (Samples.het false)]
        ++ Samples.two_samples "chr1" 20 (Samples.het true) :: []))
  = Some (AssertionError "").
Proof.
  destruct multi_sample_record_aborts as [Htag Hpipe]. split.
  - erewrite (Htag true [Samples.snp "chr1" 10 (Samples.tagged "42-1" "42-2")]).
    + reflexivity.
    + vm_compute. reflexivity.
    + simpl. lia.
  - erewrite (Hpipe [Samples.snp "chr1" 10 (Samples.het false)]).
    + reflexivity.
    + vm_compute. reflexivity.
    + reflexivity.
    + simpl. lia.
    + simpl. lia.
Defined.

(** C8.  In tag-based mode with a GTF writer, let a tagged record
    [prev] be followed by a well-formed tagged record [r] on another
    chromosome, in a stream that is in genomic order up to [prev] (the
    open block does not start after [prev]).  Then, whatever the two
    block names are, also when they are equal, the iteration at [r]
    writes the open block on the chromosome of [prev], ending at
    [prev.start + 1], and opens a new block at [r.start]. *)
Theorem chromosome_change_closes_block pre prev r call hp0 hp1 st :
  HpTags.loop (HpTags.init true) (pre ++ [prev]) = (st, None) →
  HpProps.carries_tag prev →
  samples r = [call] → HP call = Some [hp0; hp1] → is_het call = true →
  length (ALT r) ≤ 1 →
  CHROM prev ≠ CHROM r →
  (∀ bs, HpTags.block_start st = Some bs → (bs ≤ start prev)%Z) →
  ∃ name bs file st',
    HpTags.prev_block_name st = Some name ∧
    HpTags.block_start st = Some bs ∧
    HpTags.gtf st = Some file ∧
    HpTags.loop (HpTags.init true) (pre ++ [prev; r]) = (st', None) ∧
    HpTags.gtf st'
    = Some (file ++ [ {| seqname := CHROM prev; source := "Phasing";
                         feature := "exon"; gtf_start := bs + 1;
                         gtf_stop := start prev + 1; score := "."; strand := "+";
                         frame := "."; attributes := gtf_attributes name |} ]) ∧
    HpTags.block_start st' = Some (start r) ∧
    HpTags.prev_block_name st' = Some (split_head hp0).
Proof.
  intros Hloop Htag Hs Hhp Hhet Halt Hchrom Horder.
  pose proof (HpFacts.hp_loop_Inv _ _ _ _ Hloop (HpFacts.hp_Inv_init true)) as Hinv.
  pose proof (HpFacts.loop_gtf_Some _ _ _ _ Hloop (mk_is_Some _ _ eq_refl)) as [file Hfile].
  apply HpFacts.loop_snoc in Hloop as (st0 & Hpre & Hstep).
  destruct (HpFacts.step_tagged_Done _ _ _ Hstep Htag) as (name & Hname & Hprev).
  destruct (HpProps.inv_open _ Hinv name Hname) as (prev' & bs & Hprev' & Hbs & _).
  destruct (HpFacts.step_chromosome_change st prev name bs file r call hp0 hp1)
    as (st' & Hstep' & Hgtf' & Hbs' & Hname' & _); try done; [by apply Horder|].
  exists name, bs, file, st'. split_and!; try done.
  change (pre ++ [prev; r]) with (pre ++ [prev] ++ [r]).
  rewrite app_assoc. apply HpFacts.loop_snoc. exists st. split; [|done].
  apply HpFacts.loop_snoc. eauto.
Qed.

(** The scenario of the claim: tags [100-1], [100-2] on [chr1], then
    the same tags on [chr2]. *)
Lemma chromosome_change_closes_block_witness :
  ∃ st',
    HpTags.loop (HpTags.init true)
      ([] ++ [ Samples.snp "chr1" 10 (Samples.tagged "100-1" "100-2");
               Samples.snp "chr2" 5 (Samples.tagged "100-1" "100-2") ])
    = (st', None) ∧
    HpTags.gtf st'
    = Some [ {| seqname := "chr1"; source := "Phasing"; feature := "exon";
                gtf_start := 11; gtf_stop := 11; score := "."; strand := "+";
                frame := "."; attributes := gtf_attributes "100" |} ] ∧
    HpTags.block_start st' = Some 5%Z ∧
    HpTags.prev_block_name st' = Some "100"%string.
Proof.
  destruct (chromosome_change_closes_block []
              (Samples.snp "chr1" 10 (Samples.tagged "100-1" "100-2"))
              (Samples.snp "chr2" 5 (Samples.tagged "100-1" "100-2"))
              (Samples.tagged "100-1" "100-2") "100-1"%string "100-2"%string
              (HpTags.loop (HpTags.init true)
                 [Samples.snp "chr1" 10 (Samples.tagged "100-1" "100-2")]).1)
    as (name & bs & file & st' & Hname & Hbs & Hfile & Hloop & Hgtf & Hbs' & Hname').
  - vm_compute. reflexivity.
  - eexists. split; [reflexivity|]. simpl. eauto.
  - reflexivity.
  - reflexivity.
  - reflexivity.
  - simpl. lia.
  - vm_compute. discriminate.
  - vm_compute. intros bs [= <-]. discriminate.
  - exists st'. vm_compute in Hname, Hbs, Hfile.
    injection Hname as <-. injection Hbs as <-. injection Hfile as <-.
    split_and!; done.
Defined.

(** C9.  In tag-based mode a record that carries an HP tag and has more
    than one alternate allele, or is homozygous, is never taken into a
    block: once the records before it have been processed, the run
    stops at it with an assertion failure, in the state reached before
    it, and prints no statistics. *)
Theorem tag_on_invalid_record_raises gtfpath pre r post call st :
  HpTags.loop (HpTags.init gtfpath) pre = (st, None) →
  HpProps.first_call r = Some call → is_Some (HP call) →
  1 < length (ALT r) ∨ is_het call = false →
  ∃ msg,
    HpTags.step st r = Raised (AssertionError msg) ∧
    HpTags.parse_hp_tags gtfpath (pre ++ r :: post)
    = {| HpTags.gtf_file := HpTags.gtf st; HpTags.stderr := [];
         HpTags.error := Some (AssertionError msg); HpTags.final := st |}.
Proof.
  intros Hpre Hcall Htag Hbad.
  destruct (HpFacts.step_tag_invalid st r call Hcall Htag Hbad) as [msg Hstep].
  exists msg. split; [done|].
  apply HpFacts.parse_hp_tags_stops. by apply HpFacts.hp_loop_stops.
Qed.

(** The scenario of the claim: two alternate alleles and an HP tag. *)
Lemma tag_on_invalid_record_raises_witness :
  ∃ msg,
    HpTags.error
      (HpTags.parse_hp_tags true
         ([Samples.snp "chr1" 10 (Samples.tagged "42-1" "42-2")]
          ++ Samples.multiallelic "chr1" 20 (Samples.tagged "42-1" "42-2") :: []))
    = Some (AssertionError msg) ∧
    HpProps.count
      (HpTags.blocks
         (HpTags.final
            (HpTags.parse_hp_tags true
               ([Samples.snp "chr1" 10 (Samples.tagged "42-1" "42-2")]
                ++ Samples.multiallelic "chr1" 20 (Samples.tagged "42-1" "42-2") :: []))))
      ("chr1"%string, "42"%string) = 1.
Proof.
  destruct (tag_on_invalid_record_raises true
              [Samples.snp "chr1" 10 (Samples.tagged "42-1" "42-2")]
              (Samples.multiallelic "chr1" 20 (Samples.tagged "42-1" "42-2")) []
              (Samples.tagged "42-1" "42-2")
              (HpTags.loop (HpTags.init true)
                 [Samples.snp "chr1" 10 (Samples.tagged "42-1" "42-2")]).1)
    as (msg & _ & Hrun).
  - vm_compute. reflexivity.
  - reflexivity.
  - eexists. reflexivity.
  - left. simpl. lia.
  - exists msg. rewrite Hrun. split; [reflexivity|]. vm_compute. reflexivity.
Defined.

(** C10, as stated, fails in both directions.  A phased SNP that
    follows a passed-over indel raises the first-variant assertion,
    although the first record of the stream is not marked phased; and a
    stream whose first record is a phased indel runs on to its
    statistics without that failure. *)
Lemma first_phased_assertion_counts_examined_records :
  (PipeNotation.error
     (PipeNotation.parse_pipe_notation
        [ Samples.indel "chr1" 5 (Samples.het false);
          Samples.snp "chr1" 10 (Samples.het true) ])
   = Some (AssertionError PipeNotation.first_phased_msg) ∧
   ¬ PipeProps.first_record_phased
       [ Samples.indel "chr1" 5 (Samples.het false);
         Samples.snp "chr1" 10 (Samples.het true) ]) ∧
  (PipeProps.first_record_phased
     [ Samples.indel "chr1" 5 (Samples.het true);
       Samples.snp "chr1" 10 (Samples.het false) ] ∧
   PipeNotation.error
     (PipeNotation.parse_pipe_notation
        [ Samples.indel "chr1" 5 (Samples.het true);
          Samples.snp "chr1" 10 (Samples.het false) ])
   = Some (NameError "blocks")).
Proof.
  split_and!.
  - vm_compute. reflexivity.
  - intros (r & call & [= <-] & [= <-] & Hph). discriminate.
  - eexists _, _. split_and!; reflexivity.
  - vm_compute. reflexivity.
Qed.

(** C10, amended.  A run in adjacency mode fails with the assertion
    "First variant in VCF is phased" exactly when the first record it
    examines (single-ALT SNP, one sample, heterozygous), after any
    number of passed-over records, is marked phased. *)
Theorem first_examined_phased_iff (rs : list VariantRecord) :
  PipeNotation.error (PipeNotation.parse_pipe_notation rs)
  = Some (AssertionError PipeNotation.first_phased_msg)
  ↔ ∃ pre r call post,
      rs = pre ++ r :: post ∧ Forall PipeProps.skipped pre ∧
      PipeProps.examined r call ∧ phased call = true.
Proof.
  unfold PipeNotation.parse_pipe_notation. split.
  - destruct (PipeNotation.loop PipeNotation.init rs) as [st [e|]] eqn:Hloop; simpl.
    + intros [= ->]. by apply PipeFacts.loop_first_inv in Hloop as [_ ?].
    + pose proof (PipeFacts.flush_not_first st) as Hne.
      destruct (PipeNotation.flush st); simpl; [done|]. congruence.
  - intros (pre & r & call & post & -> & Hpre & Hex & Hph).
    destruct (PipeFacts.loop_first pre PipeNotation.init r call post)
      as [st' ->]; done.
Qed.

(** * Further properties *)

(** ** Block names and GTF attributes *)

Module TextFacts.
Import TextProps.

Lemma append_length (s t : string) :
  String.length (s +:+ t) = String.length s + String.length t.
Proof. induction s as [|c s IH]; simpl; [done|]. by rewrite IH. Qed.

Lemma append_inj_length (s s' t t' : string) :
  String.length s = String.length s' → s +:+ t = s' +:+ t' → s = s'.
Proof.
  revert s'. induction s as [|c s IH]; intros [|c' s']; simpl; try done.
  intros [= Hlen] [= -> Heq]. f_equal. by apply IH.
Qed.

(** X3.  The block name of a tag is the tag up to its first dash: it has no
    dash, and what follows it in the tag is nothing or starts with a
    dash. *)
Theorem split_head_prefix (s : string) :
  dash_free (split_head s) = true ∧
  ∃ rest, s = split_head s +:+ rest ∧
          (rest = EmptyString ∨ ∃ rest', rest = String "-"%char rest').
Proof.
  induction s as [|c s [IHfree (rest & IHeq & IHrest)]]; simpl.
  - split; [done|]. exists EmptyString. by split; [|left].
  - destruct (Ascii.eqb c "-"%char) eqn:Hc; simpl.
    + apply Ascii.eqb_eq in Hc as ->. split; [done|].
      exists (String "-"%char s). split; [done|]. right. by exists s.
    + rewrite Hc, IHfree. split; [done|].
      exists rest. split; [|done]. change (String c s = String c (split_head s +:+ rest)). by f_equal.
Qed.

(** X4.  A name without dash is recovered from any tag made of the name, a
    dash and a suffix: the tags [name-1] and [name-2] of the two
    haplotypes give the same block name. *)
Theorem split_head_tag (name suffix : string) :
  dash_free name = true →
  split_head (name +:+ String "-"%char suffix) = name.
Proof.
  induction name as [|c name IH]; simpl; [done|].
  intros [Hc Hfree]%andb_true_iff. apply negb_true_iff in Hc.
  rewrite Hc. f_equal. by apply IH.
Qed.

Lemma split_head_tag_witness :
  split_head ("550267" +:+ String "-"%char "1") = "550267"%string.
Proof. apply split_head_tag. reflexivity. Defined.

(** X5.  The attribute column determines the block name. *)
Theorem gtf_attributes_inj (name name' : string) :
  gtf_attributes name = gtf_attributes name' → name = name'.
Proof.
  unfold gtf_attributes. intros H.
  apply (inj (String.app _)), (inj (String.app _)) in H.
  eapply append_inj_length; [|exact H].
  apply (f_equal String.length) in H.
  rewrite !append_length in H. simpl in H. lia.
Qed.

Lemma gtf_attributes_inj_witness : split_head "42-1" = "42"%string.
Proof. apply (gtf_attributes_inj (split_head "42-1") "42"). reflexivity. Defined.

End TextFacts.

(** ** frequency_median *)

Module FrequencyFacts.
Import FrequencyProps.

Section loop.
Context (frequencies : gmap nat nat) (middle : nat).

(** The loop stops at the first length whose partial sum reaches
    [middle]. *)
Lemma frequency_median_loop_stops (lengths : list nat) : ∀ m,
  Forall (λ k, is_Some (frequencies !! k)) lengths →
  m < middle → middle ≤ m + sum_list_with (frequency frequencies) lengths →
  ∃ pre length post,
    lengths = pre ++ length :: post ∧
    frequency_median_loop frequencies middle m lengths = Done length ∧
    m + sum_list_with (frequency frequencies) pre < middle ∧
    middle ≤ m + sum_list_with (frequency frequencies) pre
             + frequency frequencies length.
Proof.
  induction lengths as [|k lengths IH]; intros m Hkeys Hlt Hge; simpl in *; [lia|].
  apply Forall_cons in Hkeys as [[f Hf] Hkeys].
  assert (frequency frequencies k = f) as Hfk by (unfold frequency; by rewrite Hf).
  rewrite Hf. rewrite Hfk in Hge.
  destruct (decide (middle ≤ m + f)) as [Hstop|Hgo].
  - exists [], k, lengths. simpl. rewrite Hfk.
    split_and!; [done| |lia|lia].
    by rewrite (proj2 (Nat.leb_le _ _) Hstop).
  - destruct (IH (m + f)) as (pre & L & post & -> & Hloop & Hpre & HL);
      [done|lia|lia|].
    exists (k :: pre), L, post. simpl. rewrite Hfk.
    split_and!; [done| |lia|lia].
    by rewrite (proj2 (Nat.leb_gt _ _)) by lia.
Qed.

(** With [middle = 0] the loop stops at the first length. *)
Lemma frequency_median_loop_head (k : nat) (lengths : list nat) (m : nat) :
  is_Some (frequencies !! k) → middle ≤ m →
  frequency_median_loop frequencies middle m (k :: lengths) = Done k.
Proof.
  intros [f Hf] Hle. simpl. rewrite Hf.
  by rewrite (proj2 (Nat.leb_le _ _)) by lia.
Qed.
End loop.

Lemma sorted_lengths_Permutation (frequencies : gmap nat nat) :
  merge_sort Nat.le (fst <$> map_to_list frequencies)
  ≡ₚ fst <$> map_to_list frequencies.
Proof. apply merge_sort_Permutation. Qed.

Lemma sum_frequency_keys (frequencies : gmap nat nat) (P : nat → Prop)
    `{∀ x, Decision (P x)} (kvs : list (nat * nat)) :
  Forall (λ kv, frequencies !! kv.1 = Some kv.2) kvs →
  sum_list_with (frequency frequencies) (filter P (fst <$> kvs))
  = sum_list_with snd (filter (λ kv, P kv.1) kvs).
Proof.
  induction 1 as [|[k v] kvs Hkv _ IH]; [done|]. simpl in Hkv.
  rewrite fmap_cons, !filter_cons. simpl. destruct (decide (P k)); simpl; [|done].
  unfold frequency at 1. rewrite Hkv. simpl. by rewrite IH.
Qed.

Lemma map_to_list_lookups (frequencies : gmap nat nat) :
  Forall (λ kv, frequencies !! kv.1 = Some kv.2) (map_to_list frequencies).
Proof. apply Forall_forall. intros [k v]. apply elem_of_map_to_list. Qed.

Lemma sum_list_with_snd (kvs : list (nat * nat)) :
  sum_list (snd <$> kvs) = sum_list_with snd kvs.
Proof. induction kvs as [|kv kvs IH]; simpl; [done|]. by rewrite <-IH. Qed.

Lemma sum_frequency_all (frequencies : gmap nat nat) (kvs : list (nat * nat)) :
  Forall (λ kv, frequencies !! kv.1 = Some kv.2) kvs →
  sum_list_with (frequency frequencies) (fst <$> kvs) = sum_list_with snd kvs.
Proof.
  induction 1 as [|[k v] kvs Hkv _ IH]; [done|]. simpl in Hkv.
  rewrite fmap_cons.
  change (frequency frequencies k
          + sum_list_with (frequency frequencies) (fst <$> kvs)
          = v + sum_list_with snd kvs).
  rewrite IH. unfold frequency. by rewrite Hkv.
Qed.

Lemma sum_frequency_total (frequencies : gmap nat nat) :
  sum_list_with (frequency frequencies)
    (merge_sort Nat.le (fst <$> map_to_list frequencies))
  = total frequencies.
Proof.
  rewrite sorted_lengths_Permutation.
  apply sum_frequency_all, map_to_list_lookups.
Qed.

Lemma sorted_lengths_keys (frequencies : gmap nat nat) :
  Forall (λ k, is_Some (frequencies !! k))
    (merge_sort Nat.le (fst <$> map_to_list frequencies)).
Proof.
  rewrite sorted_lengths_Permutation. apply Forall_fmap, Forall_forall.
  intros [k v] Hkv%elem_of_map_to_list. simpl. eauto.
Qed.

Lemma filter_all {A} (P : A → Prop) `{∀ x, Decision (P x)} (l : list A) :
  Forall P l → filter P l = l.
Proof.
  induction 1 as [|x l Hx _ IH]; [done|]. by rewrite filter_cons_True, IH.
Qed.

Lemma filter_none {A} (P : A → Prop) `{∀ x, Decision (P x)} (l : list A) :
  Forall (λ x, ¬ P x) l → filter P l = [].
Proof.
  induction 1 as [|x l Hx _ IH]; [done|]. by rewrite filter_cons_False.
Qed.

(** In a sorted list without duplicates, what lies before an element
    is what is smaller. *)
Lemma sorted_split (pre post : list nat) (x : nat) :
  StronglySorted Nat.le (pre ++ x :: post) → NoDup (pre ++ x :: post) →
  filter (λ y, y < x) (pre ++ x :: post) = pre ∧
  filter (λ y, y ≤ x) (pre ++ x :: post) = pre ++ [x].
Proof.
  intros Hsorted Hnodup.
  apply StronglySorted_app in Hsorted as (Hcross & _ & Hpost).
  apply StronglySorted_cons in Hpost as [Hpost _].
  apply NoDup_app in Hnodup as (_ & Hdisj & Hnd).
  apply NoDup_cons in Hnd as [Hx _].
  assert (Forall (λ y, y < x) pre) as Hpre.
  { apply Forall_forall. intros y Hy.
    assert (y ≤ x) by (apply Hcross; [done|left]).
    assert (y ≠ x) by (intros ->; apply (Hdisj x Hy); left). lia. }
  assert (Forall (λ y, x < y) post) as Hgt.
  { apply Forall_forall. intros y Hy.
    assert (x ≤ y) by (by eapply (Forall_forall (Nat.le x) post)).
    assert (y ≠ x) by (by intros ->). lia. }
  rewrite !filter_app.
  rewrite (filter_all (λ y, y < x) pre) by done.
  rewrite (filter_all (λ y, y ≤ x) pre)
    by (eapply Forall_impl; [exact Hpre|]; simpl; lia).
  rewrite (filter_cons_False (λ y, y < x)) by lia.
  rewrite (filter_cons_True (λ y, y ≤ x)) by lia.
  rewrite (filter_none (λ y, y < x) post)
    by (eapply Forall_impl; [exact Hgt|]; simpl; lia).
  rewrite (filter_none (λ y, y ≤ x) post)
    by (eapply Forall_impl; [exact Hgt|]; simpl; lia).
  by rewrite app_nil_r.
Qed.

Lemma sorted_lengths_split (frequencies : gmap nat nat) (pre post : list nat) (x : nat) :
  merge_sort Nat.le (fst <$> map_to_list frequencies) = pre ++ x :: post →
  sum_list_with (frequency frequencies) pre = values_below frequencies x ∧
  sum_list_with (frequency frequencies) pre + frequency frequencies x
  = values_at_most frequencies x.
Proof.
  intros Hks.
  assert (StronglySorted Nat.le (pre ++ x :: post)) as Hsorted
    by (rewrite <-Hks; apply StronglySorted_merge_sort; apply _).
  assert (NoDup (pre ++ x :: post)) as Hnodup.
  { rewrite <-Hks, sorted_lengths_Permutation. apply NoDup_fst_map_to_list. }
  destruct (sorted_split _ _ _ Hsorted Hnodup) as [Hlt Hle].
  pose proof (sum_frequency_keys frequencies (λ k, k < x) _
                (map_to_list_lookups frequencies)) as Hbelow.
  pose proof (sum_frequency_keys frequencies (λ k, k ≤ x) _
                (map_to_list_lookups frequencies)) as Hatmost.
  rewrite <-sorted_lengths_Permutation, Hks in Hbelow, Hatmost.
  rewrite Hlt in Hbelow. rewrite Hle, sum_list_with_app in Hatmost.
  simpl in Hatmost. unfold values_below, values_at_most.
  split; [exact Hbelow|]. etrans; [|exact Hatmost]. lia.
Qed.

Lemma middle_le_total (t : nat) : (1 + t) / 2 ≤ t.
Proof.
  destruct t as [|t]; [done|]. apply Nat.Div0.div_le_upper_bound. lia.
Qed.

(** X1.  [frequency_median] fails, with the assertion after its loop,
    exactly on the empty table; on any other table it returns one of
    the lengths of the table. *)
Theorem frequency_median_defined (frequencies : gmap nat nat) :
  (frequencies = ∅ → frequency_median frequencies = Raised (AssertionError "")) ∧
  (frequencies ≠ ∅ →
   ∃ length, frequency_median frequencies = Done length ∧
             is_Some (frequencies !! length)).
Proof.
  split.
  - intros ->. unfold frequency_median. by rewrite map_to_list_empty.
  - intros Hne. unfold frequency_median. rewrite sum_list_with_snd.
    fold (total frequencies).
    pose proof (sorted_lengths_keys frequencies) as Hkeys.
    pose proof (sum_frequency_total frequencies) as Hsum.
    pose proof (middle_le_total (total frequencies)) as Hmid.
    destruct (merge_sort Nat.le (fst <$> map_to_list frequencies)) as [|k ks] eqn:Hks.
    { apply (f_equal length) in Hks.
      rewrite sorted_lengths_Permutation, length_fmap, length_map_to_list in Hks.
      by apply map_size_empty_iff in Hks. }
    destruct (decide (0 < (1 + total frequencies) / 2)) as [Hpos|Hzero].
    + destruct (frequency_median_loop_stops frequencies _ (k :: ks) 0 Hkeys Hpos)
        as (pre & L & post & Heq & -> & _); [lia|].
      exists L. split; [done|].
      rewrite Heq in Hkeys. apply Forall_app in Hkeys as [_ Hkeys].
      by apply Forall_cons in Hkeys as [? _].
    + apply Forall_cons in Hkeys as [Hk _].
      rewrite frequency_median_loop_head by (done || lia). eauto.
Qed.

Lemma frequency_median_defined_witness :
  ∃ length, frequency_median {[ 3 := 2; 5 := 1 ]} = Done length.
Proof.
  destruct (frequency_median_defined {[ 3 := 2; 5 := 1 ]}) as [_ H].
  destruct H as (length & H & _); [by vm_compute|].
  by exists length.
Defined.

(** X2.  For a table that stands for at least one value,
    [frequency_median] returns the lower median: with
    [middle = (1 + total) // 2], fewer than [middle] values lie strictly
    below the returned length and at least [middle] lie at or below it. *)
Theorem frequency_median_lower_median (frequencies : gmap nat nat) :
  0 < total frequencies →
  ∃ length,
    frequency_median frequencies = Done length ∧
    values_below frequencies length < (1 + total frequencies) / 2 ∧
    (1 + total frequencies) / 2 ≤ values_at_most frequencies length.
Proof.
  intros Hpos. unfold frequency_median. rewrite sum_list_with_snd.
  fold (total frequencies).
  pose proof (middle_le_total (total frequencies)) as Hmid.
  assert (0 < (1 + total frequencies) / 2) as Hmiddle.
  { apply Nat.div_str_pos. lia. }
  destruct (frequency_median_loop_stops frequencies _ _ 0
              (sorted_lengths_keys frequencies) Hmiddle)
    as (pre & L & post & Heq & -> & Hlt & Hge).
  { rewrite sum_frequency_total. lia. }
  destruct (sorted_lengths_split _ _ _ _ Heq) as [Hbelow Hatmost].
  exists L. split; [done|]. simpl in *. lia.
Qed.

Lemma frequency_median_lower_median_witness :
  ∃ length,
    frequency_median {[ 2 := 1; 4 := 1 ]} = Done length ∧
    values_below {[ 2 := 1; 4 := 1 ]} length < (1 + total {[ 2 := 1; 4 := 1 ]}) / 2 ∧
    (1 + total {[ 2 := 1; 4 := 1 ]}) / 2 ≤ values_at_most {[ 2 := 1; 4 := 1 ]} length.
Proof.
  apply (frequency_median_lower_median {[ 2 := 1; 4 := 1 ]}).
  vm_compute. lia.
Defined.

End FrequencyFacts.

(** ** Tag-based mode: what is counted *)

Module TagFacts.
Import HpTags HpProps TagProps.

Lemma count_incr (c : gmap (string * string) nat) (key key' : string * string) :
  count (counter_incr key c) key' = count c key' + (if decide (key = key') then 1 else 0).
Proof.
  unfold count, counter_incr. destruct (decide (key = key')) as [->|Hne].
  - rewrite lookup_insert_eq. simpl. lia.
  - rewrite lookup_insert_ne by done. lia.
Qed.

Lemma sum_values_incr (c : gmap (string * string) nat) (key : string * string) :
  sum_list (values (counter_incr key c)) = S (sum_list (values c)).
Proof.
  unfold counter_incr, values. destruct (c !! key) as [v|] eqn:Hkey; simpl.
  - rewrite <-(insert_delete_eq c).
    rewrite <-(insert_delete_id c key v) at 2 by done.
    rewrite !map_to_list_insert by apply lookup_delete_eq. done.
  - by rewrite map_to_list_insert.
Qed.

Lemma size_incr (c : gmap (string * string) nat) (key : string * string) :
  size (counter_incr key c) = size c + (if c !! key is Some _ then 0 else 1).
Proof.
  unfold counter_incr. destruct (c !! key) as [v|] eqn:Hkey.
  - rewrite map_size_insert_Some by eauto. lia.
  - rewrite map_size_insert_None by done. lia.
Qed.

(** One iteration: the tallies move by what the record is. *)
Lemma step_counts st r st' :
  step st r = Done st' →
  n_records st' = S (n_records st) ∧
  n_phased st' = n_phased st + (if is_tagged r then 1 else 0) ∧
  sum_list (values (blocks st')) = sum_list (values (blocks st))
                                   + (if is_tagged r then 1 else 0) ∧
  size (blocks st') ≤ size (blocks st) + (if is_tagged r then 1 else 0) ∧
  ∀ key, count (blocks st') key
         = count (blocks st) key + (if decide (block_key r = Some key) then 1 else 0).
Proof.
  intros (call & block_name & tr & Hs & _ & _ & Htag%HpFacts.tag_record_Done & _ & _
          & Hn & _)%HpFacts.step_Done.
  unfold is_tagged, block_key. rewrite Hs. split; [done|].
  destruct (HP call) as [hp|].
  - destruct Htag as (hp0 & hp1 & -> & _ & -> & ->).
    rewrite bool_decide_eq_true_2 by eauto.
    rewrite sum_values_incr, size_incr. split_and!; [lia|lia| |].
    + destruct (blocks st !! _); lia.
    + intros key. rewrite count_incr.
      destruct (decide ((CHROM r, split_head hp0) = key)) as [->|Hne].
      * by rewrite decide_True.
      * rewrite decide_False; [done|]. by intros [= ?].
  - destruct Htag as (_ & -> & ->).
    rewrite bool_decide_eq_false_2 by (by intros [? [=]]).
    split_and!; [lia|lia|lia|]. intros key. rewrite decide_False by done. lia.
Qed.

Lemma loop_counts rs : ∀ st st',
  loop st rs = (st', None) →
  n_records st' = n_records st + length rs ∧
  n_phased st' = n_phased st + length (filter (λ r, is_tagged r = true) rs) ∧
  sum_list (values (blocks st')) = sum_list (values (blocks st))
                                   + length (filter (λ r, is_tagged r = true) rs) ∧
  size (blocks st') ≤ size (blocks st) + length (filter (λ r, is_tagged r = true) rs) ∧
  ∀ key, count (blocks st') key
         = count (blocks st) key + length (filter (λ r, block_key r = Some key) rs).
Proof.
  induction rs as [|r rs IH]; intros st st'; simpl.
  - intros [= <-]. split_and!; try intros key; simpl; lia.
  - destruct (step st r) as [st1|e] eqn:Hstep; [|done].
    intros (Hn & Hp & Hsum & Hsize & Hkey)%IH.
    destruct (step_counts _ _ _ Hstep) as (Hn1 & Hp1 & Hsum1 & Hsize1 & Hkey1).
    rewrite (filter_cons (λ r, is_tagged r = true)).
    split_and!; [lia| | | |].
    + destruct (decide (is_tagged r = true)) as [Ht|Ht%not_true_is_false];
        rewrite Ht in Hp1; simpl in *; lia.
    + destruct (decide (is_tagged r = true)) as [Ht|Ht%not_true_is_false];
        rewrite Ht in Hsum1; simpl in *; lia.
    + destruct (decide (is_tagged r = true)) as [Ht|Ht%not_true_is_false];
        rewrite Ht in Hsize1; simpl in *; lia.
    + intros key. rewrite Hkey, Hkey1, (filter_cons (λ r, block_key r = Some key)).
      destruct (decide (block_key r = Some key)); simpl; lia.
Qed.

Lemma foldl_max_spec (l : list nat) : ∀ x,
  (foldl Nat.max x l = x ∨ foldl Nat.max x l ∈ l) ∧
  x ≤ foldl Nat.max x l ∧ Forall (λ v, v ≤ foldl Nat.max x l) l.
Proof.
  induction l as [|y l IH]; intros x; simpl; [by split_and!; [left| |]|].
  destruct (IH (x `max` y)) as (Hin & Hle & Hall).
  split_and!.
  - destruct Hin as [->|Hin]; [|by right; right].
    destruct (Nat.max_spec x y) as [[_ ->]|[_ ->]]; [right; by left|by left].
  - lia.
  - constructor; [lia|done].
Qed.

Lemma foldl_min_spec (l : list nat) : ∀ x,
  (foldl Nat.min x l = x ∨ foldl Nat.min x l ∈ l) ∧
  foldl Nat.min x l ≤ x ∧ Forall (λ v, foldl Nat.min x l ≤ v) l.
Proof.
  induction l as [|y l IH]; intros x; simpl; [by split_and!; [left| |]|].
  destruct (IH (x `min` y)) as (Hin & Hle & Hall).
  split_and!.
  - destruct Hin as [->|Hin]; [|by right; right].
    destruct (Nat.min_spec x y) as [[_ ->]|[_ ->]]; [by left|right; by left].
  - lia.
  - constructor; [lia|done].
Qed.

Lemma py_max_spec (l : list nat) :
  l ≠ [] → ∃ m, py_max l = Done m ∧ m ∈ l ∧ ∀ v, v ∈ l → v ≤ m.
Proof.
  destruct l as [|x l]; [done|]. intros _. simpl. eexists. split; [done|].
  destruct (foldl_max_spec l x) as (Hin & Hle & Hall). split.
  - destruct Hin as [->|Hin]; [by left|by right].
  - intros v [->|Hv]%elem_of_cons; [done|].
    by apply (proj1 (Forall_forall _ _) Hall).
Qed.

Lemma py_min_spec (l : list nat) :
  l ≠ [] → ∃ m, py_min l = Done m ∧ m ∈ l ∧ ∀ v, v ∈ l → m ≤ v.
Proof.
  destruct l as [|x l]; [done|]. intros _. simpl. eexists. split; [done|].
  destruct (foldl_min_spec l x) as (Hin & Hle & Hall). split.
  - destruct Hin as [->|Hin]; [by left|by right].
  - intros v [->|Hv]%elem_of_cons; [done|].
    by apply (proj1 (Forall_forall _ _) Hall).
Qed.

Lemma values_nonempty (c : gmap (string * string) nat) : c ≠ ∅ → values c ≠ [].
Proof.
  intros Hne Hnil. apply Hne, map_size_empty_iff.
  by rewrite <-MedianFacts.size_values, Hnil.
Qed.

(** The statistics never raise: without blocks the report is its four
    count lines; otherwise three lines follow. *)
Lemma finalize_spec (st : state) :
  if decide (blocks st = ∅) then finalize st = (report_head st, None)
  else ∃ largest median smallest,
    finalize st = (report_head st ++ [ LargestBlock largest; MedianBlockSize median;
                                       SmallestBlock smallest ], None) ∧
    py_max (values (blocks st)) = Done largest ∧
    reported_median (blocks st) = Done median ∧
    py_min (values (blocks st)) = Done smallest.
Proof.
  unfold finalize. destruct (decide (blocks st = ∅)) as [Hempty|Hne].
  - by rewrite bool_decide_eq_false_2 by (by intros ?).
  - rewrite bool_decide_eq_true_2 by done.
    destruct (py_max_spec _ (values_nonempty _ Hne)) as (largest & -> & _).
    destruct (MedianFacts.reported_median_rank _ Hne) as (median & -> & _).
    destruct (py_min_spec _ (values_nonempty _ Hne)) as (smallest & -> & _).
    by exists largest, median, smallest.
Qed.

Lemma parse_hp_tags_error gtfpath rs :
  error (parse_hp_tags gtfpath rs) = (loop (init gtfpath) rs).2.
Proof.
  unfold parse_hp_tags. destruct (loop (init gtfpath) rs) as [st [e|]]; [done|].
  pose proof (finalize_spec st) as Hfin. destruct (decide (blocks st = ∅)).
  - by rewrite Hfin.
  - destruct Hfin as (? & ? & ? & -> & _). done.
Qed.

Lemma parse_hp_tags_completed gtfpath rs :
  error (parse_hp_tags gtfpath rs) = None →
  ∃ st, loop (init gtfpath) rs = (st, None) ∧
        final (parse_hp_tags gtfpath rs) = st ∧
        gtf_file (parse_hp_tags gtfpath rs) = gtf st ∧
        stderr (parse_hp_tags gtfpath rs) = (finalize st).1.
Proof.
  rewrite parse_hp_tags_error. unfold parse_hp_tags.
  destruct (loop (init gtfpath) rs) as [st [e|]]; [done|]. intros _.
  exists st. by destruct (finalize st).
Qed.

(** X6.  The report of a completed run counts the records of the stream:
    all of them, those with an [HP] tag, and under each key of [blocks]
    the tagged records of that chromosome and block name. *)
Theorem hp_tags_counts_records gtfpath rs :
  error (parse_hp_tags gtfpath rs) = None →
  take 4 (stderr (parse_hp_tags gtfpath rs))
  = [ VariantsInVCF (length rs);
      UsableVariants (length (filter (λ r, is_tagged r = true) rs));
      BlocksDump (blocks (final (parse_hp_tags gtfpath rs)));
      NoOfPhasedBlocks (size (blocks (final (parse_hp_tags gtfpath rs)))) ] ∧
  ∀ key, count (blocks (final (parse_hp_tags gtfpath rs))) key
         = length (filter (λ r, block_key r = Some key) rs).
Proof.
  intros (st & Hloop & -> & _ & ->)%parse_hp_tags_completed.
  destruct (loop_counts _ _ _ Hloop) as (Hn & Hp & _ & _ & Hkey).
  replace (init gtfpath) with (init gtfpath) in * by done.
  assert (n_records (init gtfpath) = 0 ∧ n_phased (init gtfpath) = 0 ∧
          blocks (init gtfpath) = ∅) as (Hn0 & Hp0 & Hb0) by done.
  rewrite Hn0 in Hn. rewrite Hp0 in Hp. split.
  - pose proof (finalize_spec st) as Hfin. unfold report_head in Hfin.
    rewrite Hn, Hp in Hfin. destruct (decide (blocks st = ∅)).
    + by rewrite Hfin.
    + destruct Hfin as (? & ? & ? & -> & _). done.
  - intros key. rewrite Hkey, Hb0. unfold count. by rewrite lookup_empty.
Qed.

Lemma hp_tags_counts_records_witness :
  count (blocks (final (parse_hp_tags false Samples.median_stream)))
        ("chr1"%string, "c"%string)
  = length (filter (λ r, block_key r = Some ("chr1"%string, "c"%string))
              Samples.median_stream).
Proof.
  apply (hp_tags_counts_records false Samples.median_stream).
  vm_compute. reflexivity.
Defined.

(** X7.  In a completed run the block sizes add up to the number of tagged
    records, and there are no more blocks than tagged records and no
    more tagged records than records. *)
Theorem hp_tags_block_sizes_add_up gtfpath rs :
  error (parse_hp_tags gtfpath rs) = None →
  sum_list (values (blocks (final (parse_hp_tags gtfpath rs))))
  = n_phased (final (parse_hp_tags gtfpath rs)) ∧
  size (blocks (final (parse_hp_tags gtfpath rs)))
  ≤ n_phased (final (parse_hp_tags gtfpath rs)) ∧
  n_phased (final (parse_hp_tags gtfpath rs))
  ≤ n_records (final (parse_hp_tags gtfpath rs)).
Proof.
  intros (st & Hloop & -> & _ & _)%parse_hp_tags_completed.
  destruct (loop_counts _ _ _ Hloop) as (Hn & Hp & Hsum & Hsize & _).
  assert (n_records (init gtfpath) = 0 ∧ n_phased (init gtfpath) = 0 ∧
          blocks (init gtfpath) = ∅) as (Hn0 & Hp0 & Hb0) by done.
  rewrite Hn0 in Hn. rewrite Hp0 in Hp. rewrite Hb0 in Hsum, Hsize.
  rewrite map_size_empty in Hsize.
  assert (sum_list (values (∅ : gmap (string * string) nat)) = 0) as Hzero
    by (unfold values; by rewrite map_to_list_empty).
  rewrite Hzero in Hsum.
  pose proof (length_filter (λ r, is_tagged r = true) rs). lia.
Qed.

Lemma hp_tags_block_sizes_add_up_witness :
  sum_list (values (blocks (final (parse_hp_tags true Samples.two_groups))))
  = n_phased (final (parse_hp_tags true Samples.two_groups)).
Proof.
  apply (hp_tags_block_sizes_add_up true Samples.two_groups).
  vm_compute. reflexivity.
Defined.

(** X8.  With at least one block the statistics print three sizes of
    blocks that exist: the largest bounds every block size from above,
    the smallest from below, and the median lies between them. *)
Theorem hp_tags_statistics_bounds (st : state) :
  blocks st ≠ ∅ →
  ∃ largest median smallest,
    finalize st = (report_head st ++ [ LargestBlock largest; MedianBlockSize median;
                                       SmallestBlock smallest ], None) ∧
    largest ∈ values (blocks st) ∧ smallest ∈ values (blocks st) ∧
    (∀ v, v ∈ values (blocks st) → smallest ≤ v ≤ largest) ∧
    smallest ≤ median ≤ largest.
Proof.
  intros Hne. pose proof (finalize_spec st) as Hfin.
  rewrite decide_False in Hfin by done.
  destruct Hfin as (largest & median & smallest & Hfin & Hmax & Hmed & Hmin).
  destruct (py_max_spec _ (values_nonempty _ Hne)) as (? & Hmax' & Hmax_in & Hmax_le).
  destruct (py_min_spec _ (values_nonempty _ Hne)) as (? & Hmin' & Hmin_in & Hmin_le).
  destruct (MedianFacts.reported_median_rank _ Hne) as (? & Hmed' & Hmed_in & _).
  rewrite Hmax in Hmax'. injection Hmax' as <-.
  rewrite Hmin in Hmin'. injection Hmin' as <-.
  rewrite Hmed in Hmed'. injection Hmed' as <-.
  exists largest, median, smallest.
  split; [done|]. split; [done|]. split; [done|]. split.
  - intros v Hv. split; [by apply Hmin_le|by apply Hmax_le].
  - split; [by apply Hmin_le|by apply Hmax_le].
Qed.

Lemma hp_tags_statistics_bounds_witness :
  ∃ largest median smallest,
    largest ∈ values Samples.blocks_3_3_5 ∧
    smallest ∈ values Samples.blocks_3_3_5 ∧
    smallest ≤ median ≤ largest.
Proof.
  destruct (hp_tags_statistics_bounds
              {| gtf := None; n_phased := 11; n_records := 11;
                 blocks := Samples.blocks_3_3_5; prev_block_name := None;
                 prev_record := None; block_start := None |})
    as (largest & median & smallest & _ & Hmax & Hmin & _ & Hle).
  - apply insert_non_empty.
  - exists largest, median, smallest. split; [exact Hmax|]. split; [exact Hmin|exact Hle].
Defined.

End TagFacts.

(** ** Tag-based mode: accepted streams and the GTF file *)

Module TagRunFacts.
Import HpTags HpProps TagProps GtfProps.

Lemma is_tagged_carries_tag (r : VariantRecord) :
  is_tagged r = true ↔ carries_tag r.
Proof.
  unfold is_tagged, carries_tag, first_call. destruct (samples r) as [|call l]; simpl.
  - split; [done|]. by intros (? & [=] & _).
  - rewrite bool_decide_eq_true. split; [eauto|]. by intros (? & [= <-] & ?).
Qed.

(** What one successful iteration says of its record. *)
Lemma step_well_formed st r st' :
  step st r = Done st' → well_formed r.
Proof.
  intros (call & block_name & tr & Hs & Halt & Hhet & Htag%HpFacts.tag_record_Done & _)
         %HpFacts.step_Done.
  exists call. split; [done|]. destruct (HP call) as [hp|] eqn:Hhp; [|done].
  destruct Htag as (hp0 & hp1 & -> & _). split_and!; [done| |].
  - destruct (is_het call); [done|]. by specialize (Hhet eq_refl).
  - destruct (decide (1 < length (ALT r))) as [Hlt|]; [|lia]. by specialize (Halt Hlt).
Qed.

Lemma step_first_tagged gtfpath r st' :
  step (init gtfpath) r = Done st' → is_tagged r = true.
Proof.
  intros (call & block_name & tr & Hs & _ & _ & Htag%HpFacts.tag_record_Done & _ & _ & _
          & Htr & _)%HpFacts.step_Done.
  unfold is_tagged. rewrite Hs. apply bool_decide_eq_true.
  destruct (HP call) as [hp|]; [by eauto|].
  destruct Htag as (-> & _). by unfold is_transition in Htr.
Qed.

(** Without a writer an iteration on a well-formed record goes
    through, provided there is a previous record or the record opens
    the first block. *)
Lemma step_accepts st r :
  gtf st = None → well_formed r →
  is_Some (prev_record st) ∨ (prev_block_name st = None ∧ is_tagged r = true) →
  ∃ st', step st r = Done st' ∧ gtf st' = None ∧ prev_record st' = Some r.
Proof.
  intros Hgtf (call & Hs & Hwf) Hprev. unfold step. rewrite Hs. simpl.
  unfold is_tagged in Hprev. rewrite Hs in Hprev. unfold hasattr_HP, tag_record.
  destruct (HP call) as [hp|] eqn:Hhp.
  - destruct Hwf as (Hlen & Hhet & Halt).
    rewrite (bool_decide_eq_false_2 (1 < length (ALT r))) by lia.
    rewrite Hhet. simpl. rewrite bool_decide_eq_true_2 by done.
    destruct hp as [|hp0 [|hp1 [|]]]; simplify_eq/=.
    assert (∃ tr, is_transition st (Some (split_head hp0)) r = Done tr) as [tr ->].
    { unfold is_transition. case_bool_decide; [by eauto|].
      destruct Hprev as [[p ->]|[Hnone _]]; [simpl; by eauto|].
      by rewrite Hnone in *. }
    simpl. destruct tr; simpl; [|by eauto].
    unfold close_block. rewrite Hgtf. destruct (prev_block_name st); simpl; eauto.
  - rewrite bool_decide_eq_false_2 by (by intros [? [=]]). rewrite !andb_false_r. simpl.
    destruct Hprev as [[p Hp]|[_ Htagged]];
      [|by rewrite bool_decide_eq_false_2 in Htagged by (by intros [? [=]])].
    assert (∃ tr, is_transition st None r = Done tr) as [tr ->].
    { unfold is_transition. rewrite Hp. case_bool_decide; simpl; eauto. }
    simpl. destruct tr; simpl; [|by eauto].
    unfold close_block. rewrite Hgtf. destruct (prev_block_name st); simpl; eauto.
Qed.

Lemma loop_accepts rs : ∀ st,
  gtf st = None → Forall well_formed rs →
  is_Some (prev_record st) ∨
    (prev_block_name st = None ∧ ∀ r, head rs = Some r → is_tagged r = true) →
  ∃ st', loop st rs = (st', None).
Proof.
  induction rs as [|r rs IH]; intros st Hgtf Hwf Hprev; simpl; [by eauto|].
  apply Forall_cons in Hwf as [Hr Hwf].
  destruct (step_accepts st r Hgtf Hr) as (st1 & -> & Hgtf1 & Hprev1).
  { destruct Hprev as [?|[? Hhead]]; [by left|right]. split; [done|]. by apply Hhead. }
  apply IH; [done|done|]. left. by rewrite Hprev1.
Qed.

Lemma loop_well_formed rs : ∀ st st',
  loop st rs = (st', None) → Forall well_formed rs.
Proof.
  induction rs as [|r rs IH]; intros st st'; simpl; [done|].
  destruct (step st r) as [st1|e] eqn:Hstep; [|done].
  intros Hloop. constructor; [by eapply step_well_formed|by eapply IH].
Qed.

(** X9.  Without a GTF path a tag-based run completes exactly on the
    streams whose records are all well formed and whose first record,
    if there is one, carries a tag. *)
Theorem hp_tags_accepts_iff (rs : list VariantRecord) :
  error (parse_hp_tags false rs) = None ↔
  Forall well_formed rs ∧ (∀ r, head rs = Some r → is_tagged r = true).
Proof.
  rewrite TagFacts.parse_hp_tags_error. split.
  - destruct (loop (init false) rs) as [st err] eqn:Hloop. simpl. intros ->.
    split; [by eapply loop_well_formed|].
    intros r Hhead. destruct rs as [|r' rs]; simplify_eq/=.
    destruct (step (init false) r) as [st1|e] eqn:Hstep; [|done].
    by eapply step_first_tagged.
  - intros [Hwf Hhead].
    destruct (loop_accepts rs (init false)) as [st' ->]; [done|done| |done].
    right. by split.
Qed.

(** Taking the writer away does not change what an iteration does to
    the other locals. *)
Lemma step_without_gtf st r st' :
  step st r = Done st' → step (without_gtf st) r = Done (without_gtf st').
Proof.
  intros H. unfold step in *.
  destruct (py_assert (bool_decide (length (samples r) = 1)) "") as [u1|];
    simpl in *; [|done].
  destruct (index0 (samples r)) as [call|]; simpl in *; [|done].
  destruct (py_assert (negb (bool_decide (1 < length (ALT r)) && hasattr_HP call)) "")
    as [u2|]; simpl in *; [|done].
  destruct (py_assert (negb (negb (is_het call) && hasattr_HP call))
              "HP tag for homozygous variant found") as [u3|]; simpl in *; [|done].
  change (tag_record (without_gtf st) r call) with (tag_record st r call).
  destruct (tag_record st r call) as [[[block_name blocks'] n_phased']|];
    simpl in *; [|done].
  change (is_transition (without_gtf st) block_name r)
    with (is_transition st block_name r).
  destruct (is_transition st block_name r) as [[|]|]; simpl in *; [| |done].
  - destruct (close_block st) as [g|] eqn:Hclose; simpl in H; [|done].
    injection H as <-.
    assert (close_block (without_gtf st) = Done None) as ->
      by (unfold close_block; simpl; by destruct (prev_block_name st)).
    done.
  - by injection H as <-.
Qed.

Lemma loop_without_gtf rs : ∀ st st',
  loop st rs = (st', None) → loop (without_gtf st) rs = (without_gtf st', None).
Proof.
  induction rs as [|r rs IH]; intros st st'; simpl; [by intros [= <-]|].
  destruct (step st r) as [st1|e] eqn:Hstep; [|done].
  rewrite (step_without_gtf _ _ _ Hstep). apply IH.
Qed.

(** X10.  Whether a GTF file is written does not change the statistics: a
    run that completes with a writer also completes without one, with
    the same report. *)
Theorem hp_tags_statistics_without_gtf (rs : list VariantRecord) :
  error (parse_hp_tags true rs) = None →
  error (parse_hp_tags false rs) = None ∧
  stderr (parse_hp_tags false rs) = stderr (parse_hp_tags true rs).
Proof.
  intros (st & Hloop & _ & _ & Herr)%TagFacts.parse_hp_tags_completed.
  apply loop_without_gtf in Hloop.
  change (without_gtf (init true)) with (init false) in Hloop.
  rewrite TagFacts.parse_hp_tags_error, Herr. unfold parse_hp_tags.
  rewrite Hloop. simpl.
  change (finalize (without_gtf st)) with (finalize st).
  split; [done|]. by destruct (finalize st).
Qed.

Lemma hp_tags_statistics_without_gtf_witness :
  stderr (parse_hp_tags false Samples.two_groups)
  = stderr (parse_hp_tags true Samples.two_groups).
Proof.
  apply (hp_tags_statistics_without_gtf Samples.two_groups).
  vm_compute. reflexivity.
Defined.

(** With a writer, an iteration on a well-formed record goes through
    when the open block does not start after the previous record and
    the record does not go back on the chromosome of the previous one. *)
Lemma step_in_order st r :
  is_Some (gtf st) → well_formed r →
  (prev_record st = None ∧ prev_block_name st = None ∧ is_tagged r = true) ∨
    (∃ prev, prev_record st = Some prev ∧
       (CHROM prev = CHROM r → (start prev ≤ start r)%Z) ∧
       ∀ name, prev_block_name st = Some name →
         ∃ bs, block_start st = Some bs ∧ (bs ≤ start prev)%Z) →
  ∃ st', step st r = Done st' ∧ is_Some (gtf st') ∧ prev_record st' = Some r ∧
    ∀ name, prev_block_name st' = Some name →
      ∃ bs, block_start st' = Some bs ∧ (bs ≤ start r)%Z.
Proof.
  intros [file Hgtf] (call & Hs & Hwf) Hprev. unfold step. rewrite Hs. simpl.
  unfold is_tagged in Hprev. rewrite Hs in Hprev. unfold hasattr_HP, tag_record.
  assert (∀ block_name tr,
    is_transition st block_name r = Done tr →
    (if tr then True
     else ∀ name, block_name = Some name →
            ∃ bs, block_start st = Some bs ∧ (bs ≤ start r)%Z) ∧
    (tr = true → ∃ g, close_block st = Done (Some g))) as Hstep.
  { intros block_name tr Htr. split.
    - destruct tr; [done|]. intros name ->.
      unfold is_transition in Htr.
      destruct (decide (prev_block_name st ≠ Some name)) as [Hne|Hname%dec_stable];
        [by rewrite bool_decide_eq_true_2 in Htr by done|].
      rewrite bool_decide_eq_false_2 in Htr by (by intros ?).
      destruct Hprev as [(_ & Hnone & _)|(prev & Hp & Horder & Hopen)]; [congruence|].
      rewrite Hp in Htr. simpl in Htr. injection Htr as Hchrom.
      apply bool_decide_eq_false in Hchrom. apply dec_stable in Hchrom.
      destruct (Hopen _ Hname) as (bs & Hbs & Hle). exists bs. split; [done|].
      specialize (Horder Hchrom). lia.
    - intros ->. unfold close_block. rewrite Hgtf.
      destruct (prev_block_name st) as [name|] eqn:Hname; [|by eauto].
      destruct Hprev as [(_ & Hnone & _)|(prev & Hp & _ & Hopen)]; [congruence|].
      destruct (Hopen _ eq_refl) as (bs & Hbs & Hle). rewrite Hp, Hbs. simpl.
      unfold GtfWriter_write. rewrite bool_decide_eq_true_2 by lia. simpl. eauto. }
  assert (∀ block_name, (block_name = None → is_Some (prev_record st)) →
    ∃ tr, is_transition st block_name r = Done tr) as Htrans.
  { intros block_name Hnone. unfold is_transition.
    destruct (decide (prev_block_name st ≠ block_name)) as [Hne|Hname%dec_stable];
      [rewrite bool_decide_eq_true_2 by done; by exists true|].
    rewrite bool_decide_eq_false_2 by (by intros ?).
    destruct Hprev as [(_ & Hpn & _)|(prev & Hp & _)].
    - destruct Hnone as [p Hp]; [congruence|]. rewrite Hp. simpl. eauto.
    - rewrite Hp. simpl. eauto. }
  destruct (HP call) as [hp|] eqn:Hhp.
  - destruct Hwf as (Hlen & Hhet & Halt).
    rewrite (bool_decide_eq_false_2 (1 < length (ALT r))) by lia.
    rewrite Hhet. simpl. rewrite bool_decide_eq_true_2 by done.
    destruct hp as [|hp0 [|hp1 [|]]]; simplify_eq/=.
    destruct (Htrans (Some (split_head hp0))) as [tr Htr]; [done|].
    rewrite Htr. simpl. destruct (Hstep _ _ Htr) as [Hkeep Hclose].
    destruct tr; simpl.
    + destruct (Hclose eq_refl) as [g ->]. simpl.
      eexists. split; [done|]. simpl. split_and!; [by eauto|done|].
      intros name _. exists (start r). split; [done|lia].
    + eexists. split; [done|]. simpl. split_and!; [by eauto|done|].
      intros name [= <-]. by apply (Hkeep (split_head hp0)).
  - rewrite bool_decide_eq_false_2 by (by intros [? [=]]). rewrite !andb_false_r. simpl.
    destruct (Htrans None) as [tr Htr].
    { intros _. destruct Hprev as [(_ & _ & Htagged)|(prev & -> & _)]; [|by eauto].
      by rewrite bool_decide_eq_false_2 in Htagged by (by intros [? [=]]). }
    rewrite Htr. simpl. destruct (Hstep _ _ Htr) as [_ Hclose].
    destruct tr; simpl.
    + destruct (Hclose eq_refl) as [g ->]. simpl.
      eexists. split; [done|]. simpl. split_and!; [by eauto|done|done].
    + eexists. split; [done|]. simpl. split_and!; [by eauto|done|done].
Qed.

Lemma loop_in_order rs : ∀ st prev,
  is_Some (gtf st) → prev_record st = Some prev →
  (∀ name, prev_block_name st = Some name →
     ∃ bs, block_start st = Some bs ∧ (bs ≤ start prev)%Z) →
  Forall well_formed rs → in_order (prev :: rs) →
  ∃ st', loop st rs = (st', None).
Proof.
  induction rs as [|r rs IH]; intros st prev Hgtf Hprev Hopen Hwf Horder;
    [by simpl; eauto|].
  apply Forall_cons in Hwf as [Hr Hwf]. destruct Horder as [Hpr Horder].
  destruct (step_in_order st r Hgtf Hr) as (st1 & Hstep & Hgtf1 & Hprev1 & Hopen1).
  { right. exists prev. by split_and!. }
  simpl. rewrite Hstep. by eapply IH.
Qed.

(** X11.  With a GTF path a tag-based run completes on every stream of
    well-formed records that starts with a tagged record and in which
    consecutive records on one chromosome do not go back in position. *)
Theorem hp_tags_accepts_in_order (rs : list VariantRecord) :
  Forall well_formed rs → (∀ r, head rs = Some r → is_tagged r = true) →
  in_order rs →
  error (parse_hp_tags true rs) = None.
Proof.
  intros Hwf Hhead Horder. rewrite TagFacts.parse_hp_tags_error.
  destruct rs as [|r rs]; [done|]. simpl.
  pose proof Hwf as [Hr Hwf']%Forall_cons.
  destruct (step_in_order (init true) r) as (st1 & Hstep & Hgtf1 & Hprev1 & Hopen1);
    [by eexists|done| |].
  { left. split_and!; [done|done|]. by apply Hhead. }
  rewrite Hstep.
  destruct (loop_in_order rs st1 r) as [st' ->]; done.
Qed.

Lemma hp_tags_accepts_in_order_witness :
  error (parse_hp_tags true Samples.median_stream) = None.
Proof.
  apply hp_tags_accepts_in_order.
  - repeat constructor; eexists; (split; [reflexivity|]); simpl; split_and!; done || lia.
  - intros r [= <-]. reflexivity.
  - simpl. split_and!; done || (intros _; lia).
Defined.

Lemma is_transition_spec st block_name r tr :
  is_transition st block_name r = Done tr →
  if tr then True
  else prev_block_name st = block_name ∧
       ∃ prev, prev_record st = Some prev ∧ CHROM prev = CHROM r.
Proof.
  unfold is_transition. destruct tr; [done|].
  destruct (decide (prev_block_name st ≠ block_name)) as [Hne|Hname%dec_stable];
    [by rewrite bool_decide_eq_true_2 by done|].
  rewrite bool_decide_eq_false_2 by (by intros ?).
  destruct (prev_record st) as [prev|]; simpl; [|done].
  intros [= Hchrom]. apply bool_decide_eq_false in Hchrom. apply dec_stable in Hchrom.
  eauto.
Qed.

Lemma step_block_key st r st' :
  step st r = Done st' →
  ∀ name, prev_block_name st' = Some name → block_key r = Some (CHROM r, name).
Proof.
  intros (call & block_name & tr & Hs & _ & _ & Htag%HpFacts.tag_record_Done & Hname & _)
         %HpFacts.step_Done name Hn.
  unfold block_key. rewrite Hs. destruct (HP call) as [hp|].
  - destruct Htag as (hp0 & hp1 & -> & -> & _). congruence.
  - destruct Htag as (-> & _). congruence.
Qed.

(** One iteration keeps the file and the open block within the
    records seen. *)
Lemma step_of_records seen st r st' :
  step st r = Done st' →
  open_block_of_records seen st →
  (∀ file line, gtf st = Some file → line ∈ file → line_of_records seen line) →
  open_block_of_records (seen ++ [r]) st' ∧
  (∀ file line, gtf st' = Some file → line ∈ file →
     line_of_records (seen ++ [r]) line).
Proof.
  intros Hstep Hopen Hlines.
  pose proof (step_block_key _ _ _ Hstep) as Hkey.
  destruct (HpFacts.step_Done _ _ _ Hstep)
    as (call & block_name & tr & Hs & _ & _ & _ & Hname & Hprev & _ & Htr & Hrest).
  apply is_transition_spec in Htr.
  assert (∀ line, line_of_records seen line → line_of_records (seen ++ [r]) line)
    as Hmono.
  { intros line (first & last & name & ? & ? & ?).
    exists first, last, name. split_and!; try tauto; apply elem_of_app; by left. }
  assert (r ∈ seen ++ [r]) as Hr by (apply elem_of_app; right; by left).
  split.
  - intros name Hn. specialize (Hkey _ Hn). rewrite Hprev.
    destruct tr.
    + destruct Hrest as [_ Hbs]. rewrite <-Hname, Hn in Hbs.
      exists r, (start r), r. by split_and!.
    + destruct Hrest as [_ Hbs]. destruct Htr as (Hsame & prev & Hp & Hchrom).
      rewrite <-Hname, Hn in Hsame.
      destruct (Hopen _ Hsame) as (prev' & bs & first & Hp' & Hbs' & _ & _ & Hf & Hfs & Hfk).
      rewrite Hp in Hp'. injection Hp' as <-.
      exists r, bs, first. rewrite Hbs. split_and!; try done.
      * apply elem_of_app. by left.
      * by rewrite <-Hchrom.
  - intros file line Hfile Hin. destruct tr.
    + destruct Hrest as [Hclose%HpFacts.close_block_Done _].
      destruct (prev_block_name st) as [name|] eqn:Hpn;
        [|apply Hmono, (Hlines file); congruence].
      destruct (gtf st) as [file0|] eqn:Hg; [|congruence].
      destruct Hclose as (prev & bs & Hp & Hbs & _ & Heq).
      rewrite Hfile in Heq. injection Heq as ->.
      apply elem_of_app in Hin as [Hin|Hin%list_elem_of_singleton];
        [by apply Hmono, (Hlines file0 line eq_refl)|].
      subst line.
      destruct (Hopen _ Hpn) as (prev' & bs' & first & Hp' & Hbs' & Hpin & Hpk & Hf & Hfs & Hfk).
      rewrite Hp in Hp'. injection Hp' as <-.
      rewrite Hbs in Hbs'. injection Hbs' as <-.
      exists first, prev, name. simpl.
      split_and!; try done; try (apply elem_of_app; by left). lia.
    + destruct Hrest as [Hg _]. apply Hmono, (Hlines file); congruence.
Qed.

Lemma loop_of_records rs : ∀ seen st st' err,
  loop st rs = (st', err) →
  open_block_of_records seen st →
  (∀ file line, gtf st = Some file → line ∈ file → line_of_records seen line) →
  ∀ file line, gtf st' = Some file → line ∈ file → line_of_records (seen ++ rs) line.
Proof.
  induction rs as [|r rs IH]; intros seen st st' err; simpl.
  - intros [= <- <-] _ Hlines. by rewrite app_nil_r.
  - destruct (step st r) as [st1|e] eqn:Hstep.
    + intros Hloop Hopen Hlines.
      destruct (step_of_records _ _ _ _ Hstep Hopen Hlines) as [Hopen1 Hlines1].
      replace (seen ++ r :: rs) with ((seen ++ [r]) ++ rs) by (by rewrite <-app_assoc).
      by eapply IH.
    + intros [= <- <-] _ Hlines file line Hfile Hin.
      destruct (Hlines _ _ Hfile Hin) as (first & last & name & ? & ? & ?).
      exists first, last, name. split_and!; try tauto; apply elem_of_app; by left.
Qed.

(** X12.  Every line of the GTF file, complete run or not, spans two tagged
    records of the stream with the chromosome and block name of the
    line: it starts at the position of one (1-based) and ends at the
    position of the other. *)
Theorem hp_tags_lines_of_records gtfpath rs file line :
  gtf_file (parse_hp_tags gtfpath rs) = Some file → line ∈ file →
  line_of_records rs line.
Proof.
  destruct (HpFacts.parse_hp_tags_final gtfpath rs) as [_ ->].
  destruct (loop (init gtfpath) rs) as [st err] eqn:Hloop. simpl.
  apply (loop_of_records rs [] (init gtfpath) st err Hloop).
  - by intros name.
  - intros file0 line0 Hf Hin. destruct gtfpath; simplify_eq/=.
    by apply elem_of_nil in Hin.
Qed.

Lemma hp_tags_lines_of_records_witness :
  ∃ line, gtf_file (parse_hp_tags true Samples.two_groups) = Some [line] ∧
          line_of_records Samples.two_groups line.
Proof.
  eexists. split; [vm_compute; reflexivity|].
  eapply (hp_tags_lines_of_records true Samples.two_groups).
  - vm_compute. reflexivity.
  - apply list_elem_of_singleton. reflexivity.
Defined.

(** One iteration with a writer keeps every counted key covered. *)
Lemma step_covered st r st' :
  step st r = Done st' → is_Some (gtf st) →
  (∀ key, 1 ≤ count (blocks st) key → key_covered st key) →
  ∀ key, 1 ≤ count (blocks st') key → key_covered st' key.
Proof.
  intros Hstep [file Hgtf] Hcov [chrom name] Hcount.
  pose proof (step_block_key _ _ _ Hstep) as Hkey.
  destruct (TagFacts.step_counts _ _ _ Hstep) as (_ & _ & _ & _ & Hcounts).
  destruct (HpFacts.step_Done _ _ _ Hstep)
    as (call & block_name & tr & Hs & _ & _ & _ & Hname & Hprev & _ & Htr & Hrest).
  apply is_transition_spec in Htr. rewrite Hcounts in Hcount.
  destruct (decide (block_key r = Some (chrom, name))) as [Hr|Hr].
  { right. simpl.
    assert (prev_block_name st' = Some name) as Hn.
    { destruct (prev_block_name st') as [name'|] eqn:Hn.
      - specialize (Hkey _ eq_refl). congruence.
      - exfalso. revert Hr. unfold block_key. rewrite Hs.
        destruct (HpFacts.step_Done _ _ _ Hstep)
          as (call' & bn & _ & Hs' & _ & _ & Htag%HpFacts.tag_record_Done & Hbn & _).
        rewrite Hs in Hs'. injection Hs' as <-.
        destruct (HP call) as [hp|]; [|done].
        destruct Htag as (? & ? & -> & -> & _). congruence. }
    split; [done|]. exists r. split; [done|].
    specialize (Hkey _ Hn). congruence. }
  assert (1 ≤ count (blocks st) (chrom, name)) as Hold by lia.
  destruct (Hcov _ Hold) as [(file0 & line & Hf & Hin & Hseq & Hattr)|(Hopen & prev & Hp & Hchrom)];
    simpl in *.
  - left. rewrite Hgtf in Hf. injection Hf as <-. destruct tr.
    + destruct Hrest as [Hclose%HpFacts.close_block_Done _]. rewrite Hgtf in Hclose.
      destruct (prev_block_name st).
      * destruct Hclose as (? & ? & _ & _ & _ & Heq).
        eexists _, line. split; [exact Heq|]. split; [apply elem_of_app; by left|done].
      * exists file, line. split; [congruence|done].
    + destruct Hrest as [Hg _]. exists file, line. split; [congruence|done].
  - destruct tr.
    + left. destruct Hrest as [Hclose%HpFacts.close_block_Done _].
      rewrite Hopen, Hgtf in Hclose.
      destruct Hclose as (prev' & bs & Hp' & _ & _ & Heq).
      rewrite Hp in Hp'. injection Hp' as <-.
      eexists _, _. split; [exact Heq|]. split; [apply elem_of_app; right; by left|].
      by simpl.
    + right. destruct Htr as (Hsame & prev' & Hp' & Hchrom').
      rewrite Hp in Hp'. injection Hp' as <-.
      simpl. split; [congruence|]. exists r. split; [done|]. congruence.
Qed.

Lemma loop_covered rs : ∀ st st' err,
  loop st rs = (st', err) → is_Some (gtf st) →
  (∀ key, 1 ≤ count (blocks st) key → key_covered st key) →
  ∀ key, 1 ≤ count (blocks st') key → key_covered st' key.
Proof.
  induction rs as [|r rs IH]; intros st st' err; simpl.
  - by intros [= <- <-].
  - destruct (step st r) as [st1|e] eqn:Hstep; [|by intros [= <- <-]].
    intros Hloop Hgtf Hcov. eapply IH; [done| |].
    + by eapply HpFacts.step_gtf_Some.
    + by eapply step_covered.
Qed.

(** X13.  With a GTF path, every block counted by a run is in the file with
    its chromosome and name, except for the block that is still open
    when the run ends, which may be missing. *)
Theorem hp_tags_gtf_misses_only_open_block rs key :
  1 ≤ count (blocks (final (parse_hp_tags true rs))) key →
  key_covered (final (parse_hp_tags true rs)) key.
Proof.
  destruct (HpFacts.parse_hp_tags_final true rs) as [-> _].
  destruct (loop (init true) rs) as [st err] eqn:Hloop. simpl.
  apply (loop_covered rs (init true) st err Hloop); [by eexists|].
  intros key' Hc. unfold count in Hc. simpl in Hc. rewrite lookup_empty in Hc.
  simpl in Hc. lia.
Qed.

Lemma hp_tags_gtf_misses_only_open_block_witness :
  key_covered (final (parse_hp_tags true Samples.two_groups))
    ("chr1"%string, "42"%string).
Proof.
  apply (hp_tags_gtf_misses_only_open_block Samples.two_groups).
  vm_compute. lia.
Defined.

End TagRunFacts.

(** ** Adjacency mode: the report and streams in genomic order *)

Module PipeRunFacts.
Import PipeNotation PipeProps PipeRunProps.

Lemma is_examined_spec (r : VariantRecord) :
  is_examined r = true ↔ ∃ call, examined r call.
Proof.
  unfold is_examined, examined. split.
  - intros [[Hsnp Halt%bool_decide_eq_true]%andb_true_iff Hs]%andb_true_iff.
    destruct (samples r) as [|call [|]]; try done. by exists call.
  - intros (call & -> & Halt & -> & ->). by rewrite bool_decide_eq_true_2.
Qed.

Lemma skipped_not_examined (r : VariantRecord) :
  skipped r → is_examined r = false.
Proof.
  unfold is_examined. intros [->|[Halt|(call & -> & ->)]]; [done| |].
  - rewrite (bool_decide_eq_false_2 (length (ALT r) ≤ 1)) by lia.
    by rewrite andb_false_r.
  - by rewrite andb_false_r.
Qed.

Lemma step_n st r st' :
  step st r = Done st' → n st' = n st + (if is_examined r then 1 else 0).
Proof.
  intros [[Hsk Hn]|(call & st1 & Hex & Hcall & ->)]%PipeFacts.step_Done_cases.
  - rewrite (skipped_not_examined _ Hsk). lia.
  - assert (is_examined r = true) as -> by (apply is_examined_spec; eauto).
    simpl. assert (n st1 = n st) as ->; [|lia].
    unfold on_call, on_phased, on_unphased in Hcall. simpl in Hcall.
    destruct (phased call).
    + bind_inv Hcall u Hu. destruct (block_start st).
      * bind_inv Hcall nv Hnv. by injection Hcall as <-.
      * bind_inv Hcall ps Hps. by injection Hcall as <-.
    + destruct (block_start st) as [bs|].
      * bind_inv Hcall st2 Hend. injection Hcall as <-. simpl.
        by apply PipeFacts.end_of_block_Done in Hend as (? & ? & ? & _ & _ & _ & _ & -> & _).
      * by injection Hcall as <-.
Qed.

Lemma loop_n rs : ∀ st st',
  loop st rs = (st', None) →
  n st' = n st + length (filter (λ r, is_examined r = true) rs).
Proof.
  induction rs as [|r rs IH]; intros st st'; simpl; [intros [= <-]; lia|].
  destruct (step st r) as [st1|e] eqn:Hstep; [|done].
  intros ->%IH. rewrite (step_n _ _ _ Hstep), filter_cons.
  destruct (is_examined r); simpl; lia.
Qed.

(** What a successful iteration does, case by case. *)
Lemma step_spec st r st' :
  step st r = Done st' →
  record_var st' = Some r ∧
  ((skipped r ∧ n st' = n st ∧ block_start st' = block_start st ∧
    singletons st' = singletons st ∧ block_lengths st' = block_lengths st ∧
    prev_start st' = prev_start st ∧ n_variants st' = n_variants st ∧
    stdout st' = stdout st) ∨
   (∃ call, examined r call ∧ n st' = S (n st) ∧ prev_start st' = Some (start r) ∧
      ((phased call = true ∧ 0 < n st ∧ singletons st' = singletons st ∧
        block_lengths st' = block_lengths st ∧ stdout st' = stdout st ∧
        ((block_start st = None ∧ n_variants st' = Some 2 ∧
          ∃ ps, prev_start st = Some ps ∧ block_start st' = Some ps) ∨
         (∃ bs nv, block_start st = Some bs ∧ n_variants st = Some nv ∧
            block_start st' = Some bs ∧ n_variants st' = Some (nv + 1)))) ∨
       (phased call = false ∧ block_start st' = None ∧
        n_variants st' = n_variants st ∧
        ((block_start st = None ∧ singletons st' = S (singletons st) ∧
          block_lengths st' = block_lengths st ∧ stdout st' = stdout st) ∨
         (∃ bs ps nv, block_start st = Some bs ∧ prev_start st = Some ps ∧
            (bs < ps)%Z ∧ n_variants st = Some nv ∧
            singletons st' = singletons st ∧
            block_lengths st' = block_lengths st ++ [(ps - bs + 1)%Z] ∧
            stdout st' = stdout st ++ [ {| chrom := CHROM r; bstart := bs;
                                           bstop := ps + 1; Len := ps - bs + 1;
                                           N := nv |} ])))))).
Proof.
  intros H. unfold step in H.
  destruct (is_snp r) eqn:Hsnp; simpl in H;
    [|injection H as <-; split; [done|left]; split_and!; try done; by left].
  case_bool_decide as Halt;
    [injection H as <-; split; [done|left]; split_and!; try done; right; by left|].
  bind_inv H call Hcall. bind_inv H u Hone.
  apply py_assert_Done, bool_decide_eq_true in Hone.
  destruct (samples r) as [|call' [|]] eqn:Hs; simplify_eq/=.
  destruct (is_het call) eqn:Hhet; simpl in H;
    [|injection H as <-; split; [done|left]; split_and!; try done; right; right; eauto].
  bind_inv H st1 Hon. injection H as <-.
  assert (examined r call) as Hex by (split_and!; [done|lia|done|done]).
  unfold on_call, on_phased, on_unphased, end_of_block in Hon. simpl in Hon.
  destruct (phased call) eqn:Hph.
  - bind_inv Hon u' Hn. apply py_assert_Done, bool_decide_eq_true in Hn.
    destruct (block_start st) as [bs|] eqn:Hbs.
    + bind_inv Hon nv Hnv. apply read_local_Done in Hnv. injection Hon as <-. simpl.
      split; [done|right]. exists call. split_and!; try done. left.
      split_and!; try done. right. by exists bs, nv.
    + bind_inv Hon ps Hps. apply read_local_Done in Hps. injection Hon as <-. simpl.
      split; [done|right]. exists call. split_and!; try done. left.
      split_and!; try done. left. split_and!; try done. by exists ps.
  - destruct (block_start st) as [bs|] eqn:Hbs.
    + bind_inv Hon st2 Hend. injection Hon as <-. simpl.
      bind_inv Hend ps Hps. apply read_local_Done in Hps.
      bind_inv Hend u' Hlt. apply py_assert_Done, bool_decide_eq_true in Hlt.
      bind_inv Hend nv Hnv. apply read_local_Done in Hnv. injection Hend as <-. simpl.
      split; [done|right]. exists call. split_and!; try done. right.
      split_and!; try done. right. by exists bs, ps, nv.
    + injection Hon as <-. simpl.
      split; [done|right]. exists call. split_and!; try done. right.
      split_and!; try done. by left.
Qed.

Lemma flush_spec st st' :
  flush st = Done st' →
  n st' = n st ∧ singletons st' = singletons st ∧ block_start st' = block_start st ∧
  ((block_start st = None ∧ stdout st' = stdout st ∧
    block_lengths st' = block_lengths st) ∨
   (∃ bs ps nv record,
      block_start st = Some bs ∧ prev_start st = Some ps ∧ (bs < ps)%Z ∧
      n_variants st = Some nv ∧ record_var st = Some record ∧
      block_lengths st' = block_lengths st ++ [(ps - bs + 1)%Z] ∧
      stdout st' = stdout st ++ [ {| chrom := CHROM record; bstart := bs;
                                     bstop := ps + 1; Len := ps - bs + 1;
                                     N := nv |} ])).
Proof.
  unfold flush. destruct (block_start st) as [bs|] eqn:Hbs.
  - intros (ps & record & nv & Hps & Hlt & Hr & Hnv & Hn & Hb & Hsg & Hbl & _ & _ & Hso)
           %PipeFacts.end_of_block_Done.
    split_and!; [done|done|congruence|]. right. by exists bs, ps, nv, record.
  - intros [= <-]. split_and!; try done. by left.
Qed.

Lemma lines_consistent_snoc st st' bs ps nv chromosome :
  lines_consistent st → (bs < ps)%Z →
  block_lengths st' = block_lengths st ++ [(ps - bs + 1)%Z] →
  stdout st' = stdout st ++ [ {| chrom := chromosome; bstart := bs; bstop := ps + 1;
                                 Len := ps - bs + 1; N := nv |} ] →
  lines_consistent st'.
Proof.
  intros [Hbl Hall] Hlt Hbl' Hso. split.
  - by rewrite Hbl', Hso, fmap_app, Hbl.
  - rewrite Hso. intros b [Hb|Hb%list_elem_of_singleton]%elem_of_app; [by apply Hall|].
    subst b. simpl. lia.
Qed.

Lemma step_lines_consistent st r st' :
  step st r = Done st' → lines_consistent st → lines_consistent st'.
Proof.
  intros [_ [Hsk|(call & _ & _ & _ & [Hph|Hun])]]%step_spec Hcons.
  - destruct Hsk as (_ & _ & _ & _ & Hbl & _ & _ & Hso).
    unfold lines_consistent. by rewrite Hbl, Hso.
  - destruct Hph as (_ & _ & _ & Hbl & Hso & _).
    unfold lines_consistent. by rewrite Hbl, Hso.
  - destruct Hun as (_ & _ & _ & [(_ & _ & Hbl & Hso)|Hclose]).
    + unfold lines_consistent. by rewrite Hbl, Hso.
    + destruct Hclose as (bs & ps & nv & _ & _ & Hlt & _ & _ & Hbl & Hso).
      by eapply lines_consistent_snoc.
Qed.

Lemma loop_lines_consistent rs : ∀ st st' err,
  loop st rs = (st', err) → lines_consistent st → lines_consistent st'.
Proof.
  induction rs as [|r rs IH]; intros st st' err; simpl; [by intros [= <- <-]|].
  destruct (step st r) as [st1|e] eqn:Hstep; [|by intros [= <- <-]].
  intros Hloop Hcons. eapply IH; [done|]. by eapply step_lines_consistent.
Qed.

Lemma final_lines_consistent (rs : list VariantRecord) :
  lines_consistent (final (parse_pipe_notation rs)) ∧
  out (parse_pipe_notation rs) = stdout (final (parse_pipe_notation rs)).
Proof.
  unfold parse_pipe_notation.
  destruct (loop init rs) as [st err] eqn:Hloop.
  assert (lines_consistent st) as Hcons.
  { eapply loop_lines_consistent; [done|]. split; [done|].
    by intros b Hb%elem_of_nil. }
  destruct err as [e|]; [done|].
  destruct (flush st) as [st'|e] eqn:Hflush; [|done]. simpl. split; [|done].
  apply flush_spec in Hflush as (_ & _ & _ & [(_ & Hso & Hbl)|Hclose]).
  - unfold lines_consistent. by rewrite Hbl, Hso.
  - destruct Hclose as (bs & ps & nv & record & _ & _ & Hlt & _ & _ & Hbl & Hso).
    by eapply lines_consistent_snoc.
Qed.

(** X15.  In every run, complete or not, each printed block line has as
    [Len] the width [end - start] of its interval, which is at least 2,
    and the list of block lengths kept for the statistics is the [Len]
    column of the printed lines. *)
Theorem pipe_block_lines (rs : list VariantRecord) :
  lines_consistent (final (parse_pipe_notation rs)) ∧
  out (parse_pipe_notation rs) = stdout (final (parse_pipe_notation rs)).
Proof. apply final_lines_consistent. Qed.

(** X16.  A run that gets as far as its statistics prints the number of
    examined records and the number of printed blocks, and then stops
    with the [NameError] of line 129. *)
Theorem pipe_report (rs : list VariantRecord) :
  stderr (parse_pipe_notation rs) ≠ [] →
  stderr (parse_pipe_notation rs)
  = [ ConsideredVariants (length (filter (λ r, is_examined r = true) rs));
      Blocks (length (out (parse_pipe_notation rs))) ] ∧
  error (parse_pipe_notation rs) = Some (NameError "blocks").
Proof.
  intros Hreached.
  destruct (final_lines_consistent rs) as [[Hbl _] Hout].
  destruct (PipeFacts.parse_pipe_notation_reached rs Hreached)
    as (st & st' & Hloop & Hflush & _ & Hfinal).
  rewrite Hout, <-(length_fmap Len), <-Hbl, Hfinal.
  apply loop_n in Hloop. apply flush_spec in Hflush as (Hn & _).
  unfold parse_pipe_notation in *.
  destruct (loop init rs) as [st0 [e|]]; [done|].
  destruct (flush st0) as [st1|e]; [|done]. simpl in *. subst st1.
  rewrite Hn, Hloop. done.
Qed.

Lemma pipe_report_witness :
  error (parse_pipe_notation Samples.two_runs) = Some (NameError "blocks").
Proof.
  apply (pipe_report Samples.two_runs). vm_compute. discriminate.
Defined.

Lemma loop_record_var rs : ∀ st st',
  loop st rs = (st', None) → rs ≠ [] → record_var st' = last rs.
Proof.
  induction rs as [|r rs IH]; intros st st'; simpl; [done|].
  destruct (step st r) as [st1|e] eqn:Hstep; [|done].
  intros Hloop _. apply step_spec in Hstep as [Hr _].
  destruct rs as [|r' rs]; [by simpl in Hloop; injection Hloop as <-|].
  by rewrite (IH _ _ Hloop).
Qed.

(** X17.  When the stream ends inside a block, the line printed for it after
    the loop carries the chromosome of the last record of the stream,
    examined or not. *)
Theorem pipe_final_block_chromosome (rs : list VariantRecord) (bs : Z) :
  stderr (parse_pipe_notation rs) ≠ [] →
  block_start (final (parse_pipe_notation rs)) = Some bs →
  ∃ b r, last (out (parse_pipe_notation rs)) = Some b ∧ last rs = Some r ∧
         chrom b = CHROM r ∧ bstart b = bs.
Proof.
  intros Hreached Hopen.
  destruct (PipeFacts.parse_pipe_notation_reached rs Hreached)
    as (st & st' & Hloop & Hflush & -> & Hfinal).
  rewrite Hfinal in Hopen.
  apply flush_spec in Hflush as (_ & _ & Hbs & [(Hnone & _)|Hclose]); [congruence|].
  destruct Hclose as (bs' & ps & nv & record & Hbs' & _ & _ & _ & Hrec & _ & Hso).
  assert (rs ≠ []) as Hne.
  { intros ->. simpl in Hloop. injection Hloop as <-. done. }
  rewrite (loop_record_var _ _ _ Hloop Hne) in Hrec.
  eexists _, record. rewrite Hso, last_snoc. split_and!; [done|done|done|].
  simpl. congruence.
Qed.

Lemma pipe_final_block_chromosome_witness :
  ∃ b r, last (out (parse_pipe_notation Samples.one_run)) = Some b ∧
         last Samples.one_run = Some r ∧ chrom b = CHROM r ∧ bstart b = 10%Z.
Proof.
  apply (pipe_final_block_chromosome Samples.one_run 10).
  - vm_compute. discriminate.
  - vm_compute. reflexivity.
Defined.

Lemma Ordered_init : Ordered init.
Proof.
  split; simpl; try done; try lia.
  - constructor.
  - by intros b Hb%elem_of_nil.
Qed.

Lemma sorted_snoc_before (lines : list block_line) (b : block_line) :
  StronglySorted before lines → (∀ b', b' ∈ lines → before b' b) →
  StronglySorted before (lines ++ [b]).
Proof.
  intros Hsorted Hall. apply StronglySorted_app. split_and!; [|done|].
  - intros b1 b2 Hb1 Hb2%list_elem_of_singleton. subst b2. by apply Hall.
  - repeat constructor.
Qed.

(** An iteration that went through keeps the order, when the record,
    if examined, lies after the previous examined one. *)
Lemma step_Ordered st r st' :
  step st r = Done st' → Ordered st →
  (is_examined r = true → ∀ ps, prev_start st = Some ps → (ps < start r)%Z) →
  Ordered st'.
Proof.
  intros [Hrec [Hsk|(call & Hex & Hn & Hps & Hcase)]]%step_spec
         [Hprev Hrecord Hopen Hsorted Hlast] Hnext.
  - destruct Hsk as (_ & Hn & Hbs & _ & _ & Hps & Hnv & Hso).
    split; rewrite ?Hn, ?Hbs, ?Hps, ?Hnv, ?Hso, ?Hrec; done.
  - assert (is_examined r = true) as Hexb by (apply is_examined_spec; eauto).
    specialize (Hnext Hexb).
    destruct Hcase as [(_ & Hpos & _ & _ & Hso & Hblock)|(_ & Hbs & Hnv & Hblock)].
    + destruct Hblock as [(Hnone & Hnv & ps & Hps0 & Hbs)|(bs & nv & Hbs0 & Hnv0 & Hbs & Hnv)].
      * split; rewrite ?Hn, ?Hbs, ?Hps, ?Hnv, ?Hso, ?Hrec; try by eauto.
        -- intros bs' [= <-]. split; [lia|]. exists (start r), 2.
           split_and!; [done| |done]. by apply Hnext.
        -- intros b Hb. specialize (Hlast b Hb). rewrite Hnone in Hlast.
           destruct Hlast as (ps' & Hps' & Hle). congruence.
      * destruct (Hopen _ Hbs0) as (_ & ps & nv' & Hps0 & Hlt & _).
        split; rewrite ?Hn, ?Hbs, ?Hps, ?Hnv, ?Hso, ?Hrec; try by eauto.
        -- intros bs' [= <-]. split; [lia|]. exists (start r), (nv + 1).
           split_and!; [done| |done]. specialize (Hnext _ Hps0). lia.
        -- intros b Hb. specialize (Hlast b Hb). by rewrite Hbs0 in Hlast.
    + destruct Hblock as [(Hnone & _ & _ & Hso)|(bs & ps & nv & Hbs0 & Hps0 & Hlt & _ & _ & _ & Hso)].
      * split; rewrite ?Hn, ?Hbs, ?Hps, ?Hnv, ?Hso, ?Hrec; try by eauto.
        intros b Hb. specialize (Hlast b Hb). rewrite Hnone in Hlast.
        destruct Hlast as (ps' & Hps' & Hle). exists (start r). split; [done|].
        specialize (Hnext _ Hps'). lia.
      * specialize (Hnext _ Hps0).
        split; rewrite ?Hn, ?Hbs, ?Hps, ?Hnv, ?Hso, ?Hrec; try by eauto.
        -- apply sorted_snoc_before; [done|]. intros b Hb.
           specialize (Hlast b Hb). rewrite Hbs0 in Hlast. by unfold before.
        -- intros b [Hb|Hb%list_elem_of_singleton]%elem_of_app.
           ++ specialize (Hlast b Hb). rewrite Hbs0 in Hlast.
              exists (start r). split; [done|lia].
           ++ subst b. simpl. exists (start r). split; [done|lia].
Qed.

(** With its order kept, an iteration goes through when the record
    has its sample and is not a phased first variant. *)
Lemma step_goes_through st r :
  Ordered st → samples_ok r →
  (is_examined r = true → n st = 0 → call_phased r = false) →
  ∃ st', step st r = Done st'.
Proof.
  intros [Hprev Hrecord Hopen _ _] Hok Hfirst.
  unfold is_examined, call_phased in Hfirst. unfold step.
  destruct (is_snp r) eqn:Hsnp; simpl; [|by eauto].
  destruct (decide (1 < length (ALT r))) as [Halt|Halt];
    [rewrite bool_decide_eq_true_2 by done; by eauto|].
  rewrite bool_decide_eq_false_2 by done.
  destruct Hok as [?|[?|[call Hs]]]; [congruence|done|]. rewrite Hs in Hfirst |- *. simpl.
  rewrite bool_decide_eq_true_2 in Hfirst by lia. simpl in Hfirst.
  destruct (is_het call) eqn:Hhet; simpl; [|by eauto].
  specialize (Hfirst eq_refl).
  unfold on_call, on_phased, on_unphased, end_of_block. simpl.
  destruct (phased call) eqn:Hph.
  - assert (0 < n st) as Hn by (destruct (n st); [by specialize (Hfirst eq_refl)|lia]).
    rewrite bool_decide_eq_true_2 by done. simpl.
    destruct (block_start st) as [bs|] eqn:Hbs.
    + destruct (Hopen _ eq_refl) as (_ & ps & nv & _ & _ & ->). simpl. eauto.
    + destruct (Hprev Hn) as [ps ->]. simpl. eauto.
  - destruct (block_start st) as [bs|] eqn:Hbs; [|simpl; by eauto].
    destruct (Hopen _ eq_refl) as (_ & ps & nv & -> & Hlt & ->). simpl.
    rewrite bool_decide_eq_true_2 by done. simpl. eauto.
Qed.

Lemma loop_Ordered rs : ∀ st,
  Ordered st → Forall samples_ok rs →
  (n st = 0 → ∀ r, head (filter (λ r, is_examined r = true) rs) = Some r →
     call_phased r = false) →
  StronglySorted Z.lt (prev_position st ++ examined_positions rs) →
  ∃ st', loop st rs = (st', None) ∧ Ordered st'.
Proof.
  induction rs as [|r rs IH]; intros st Hord Hok Hfirst Hsorted; simpl; [by eauto|].
  apply Forall_cons in Hok as [Hr Hok].
  unfold examined_positions in Hsorted. rewrite filter_cons in Hsorted, Hfirst.
  destruct (step_goes_through st r Hord Hr) as [st1 Hstep].
  { intros Hex Hn. rewrite decide_True in Hfirst by done. by apply Hfirst. }
  rewrite Hstep.
  assert (Ordered st1) as Hord1.
  { eapply step_Ordered; [done|done|]. intros Hex ps Hps.
    rewrite decide_True in Hsorted by done. unfold prev_position in Hsorted.
    rewrite Hps in Hsorted. simpl in Hsorted.
    apply StronglySorted_cons in Hsorted as [Hall _].
    by apply Forall_cons in Hall as [? _]. }
  apply IH; [done|done| |].
  - intros Hn1. pose proof (step_n _ _ _ Hstep) as Hn.
    destruct (is_examined r) eqn:Hex; [lia|].
    rewrite decide_False in Hfirst by done. apply Hfirst. lia.
  - apply step_spec in Hstep as [_ [Hsk|(call & Hex & _ & Hps & _)]].
    + destruct Hsk as (Hsk%skipped_not_examined & _ & _ & _ & _ & Hps & _).
      rewrite decide_False in Hsorted by (by rewrite Hsk).
      unfold prev_position. by rewrite Hps.
    + assert (is_examined r = true) as Hexb by (apply is_examined_spec; eauto).
      rewrite decide_True in Hsorted by done.
      unfold prev_position. rewrite Hps. simpl.
      rewrite fmap_cons in Hsorted.
      by apply StronglySorted_app in Hsorted as (_ & _ & ?).
Qed.

(** The hypotheses on a stream in genomic order. *)
Lemma run_Ordered rs :
  Forall samples_ok rs →
  (∀ r, head (filter (λ r, is_examined r = true) rs) = Some r →
     call_phased r = false) →
  StronglySorted Z.lt (examined_positions rs) →
  ∃ st st', loop init rs = (st, None) ∧ flush st = Done st' ∧
            StronglySorted before (stdout st').
Proof.
  intros Hok Hfirst Hsorted.
  destruct (loop_Ordered rs init Ordered_init Hok) as (st & Hloop & Hord);
    [by intros _|done|].
  destruct Hord as [Hprev Hrecord Hopen Hsort Hlast].
  exists st. unfold flush, end_of_block.
  destruct (block_start st) as [bs|] eqn:Hbs; [|by exists st].
  destruct (Hopen _ eq_refl) as (Hn & ps & nv & Hps & Hlt & Hnv).
  destruct (Hrecord Hn) as [record Hrec].
  rewrite Hps, Hrec, Hnv. simpl. rewrite bool_decide_eq_true_2 by done. simpl.
  eexists. split; [done|]. split; [done|]. simpl.
  apply sorted_snoc_before; [done|]. intros b Hb.
  specialize (Hlast b Hb). by unfold before.
Qed.

(** X18.  A stream in which every single-ALT SNP has its one sample, the
    first examined record is unphased and the examined positions
    increase is processed up to the statistics: no assertion fails. *)
Theorem pipe_accepts_increasing (rs : list VariantRecord) :
  Forall samples_ok rs →
  (∀ r, head (filter (λ r, is_examined r = true) rs) = Some r →
     call_phased r = false) →
  StronglySorted Z.lt (examined_positions rs) →
  stderr (parse_pipe_notation rs) ≠ [] ∧
  error (parse_pipe_notation rs) = Some (NameError "blocks").
Proof.
  intros Hok Hfirst Hsorted.
  destruct (run_Ordered rs Hok Hfirst Hsorted) as (st & st' & Hloop & Hflush & _).
  unfold parse_pipe_notation. by rewrite Hloop, Hflush.
Qed.

Lemma pipe_accepts_increasing_witness :
  error (parse_pipe_notation Samples.two_runs) = Some (NameError "blocks").
Proof.
  apply (pipe_accepts_increasing Samples.two_runs).
  - unfold Samples.two_runs.
    repeat (apply Forall_cons_2; [right; right; eexists; reflexivity|]).
    apply Forall_nil_2.
  - intros r [= <-]. reflexivity.
  - vm_compute. repeat constructor.
Defined.

(** X19.  On such a stream the printed blocks follow one another without
    overlap: each ends at or before the start of every later one. *)
Theorem pipe_blocks_disjoint (rs : list VariantRecord) :
  Forall samples_ok rs →
  (∀ r, head (filter (λ r, is_examined r = true) rs) = Some r →
     call_phased r = false) →
  StronglySorted Z.lt (examined_positions rs) →
  StronglySorted before (out (parse_pipe_notation rs)).
Proof.
  intros Hok Hfirst Hsorted.
  destruct (run_Ordered rs Hok Hfirst Hsorted) as (st & st' & Hloop & Hflush & Hout).
  unfold parse_pipe_notation. by rewrite Hloop, Hflush.
Qed.

Lemma pipe_blocks_disjoint_witness :
  StronglySorted before (out (parse_pipe_notation Samples.two_runs)).
Proof.
  apply (pipe_blocks_disjoint Samples.two_runs).
  - unfold Samples.two_runs.
    repeat (apply Forall_cons_2; [right; right; eexists; reflexivity|]).
    apply Forall_nil_2.
  - intros r [= <-]. reflexivity.
  - vm_compute. repeat constructor.
Defined.

End PipeRunFacts.

(** ** Tag-based mode: the GTF file of a longer stream *)

Module StreamFacts.
Import HpTags HpProps TagProps.

Lemma step_gtf_grows st r st' file :
  step st r = Done st' → gtf st = Some file →
  ∃ extra, gtf st' = Some (file ++ extra).
Proof.
  intros (call & block_name & tr & _ & _ & _ & _ & _ & _ & _ & _ & Hrest)%HpFacts.step_Done
         Hgtf.
  destruct tr.
  - destruct Hrest as [Hclose%HpFacts.close_block_Done _]. rewrite Hgtf in Hclose.
    destruct (prev_block_name st).
    + destruct Hclose as (? & ? & _ & _ & _ & ->). eauto.
    + exists []. by rewrite app_nil_r, Hclose.
  - destruct Hrest as [-> _]. exists []. by rewrite app_nil_r.
Qed.

Lemma loop_gtf_grows rs : ∀ st st' err file,
  loop st rs = (st', err) → gtf st = Some file →
  ∃ extra, gtf st' = Some (file ++ extra).
Proof.
  induction rs as [|r rs IH]; intros st st' err file; simpl.
  - intros [= <- <-] ->. exists []. by rewrite app_nil_r.
  - destruct (step st r) as [st1|e] eqn:Hstep.
    + intros Hloop Hgtf.
      destruct (step_gtf_grows _ _ _ _ Hstep Hgtf) as [extra1 Hgtf1].
      destruct (IH _ _ _ _ Hloop Hgtf1) as [extra ->].
      exists (extra1 ++ extra). by rewrite app_assoc.
    + intros [= <- <-] ->. exists []. by rewrite app_nil_r.
Qed.

(** X14.  The GTF file is written front to back: what a run has written for
    the first records of a stream stays as it is when the stream goes
    on, and the lines for the later records come after it. *)
Theorem hp_tags_gtf_extends (pre post : list VariantRecord) :
  error (parse_hp_tags true pre) = None →
  ∃ file extra,
    gtf_file (parse_hp_tags true pre) = Some file ∧
    gtf_file (parse_hp_tags true (pre ++ post)) = Some (file ++ extra).
Proof.
  intros (st & Hloop & _ & Hfile & _)%TagFacts.parse_hp_tags_completed.
  destruct (HpFacts.parse_hp_tags_final true (pre ++ post)) as [_ ->].
  rewrite Hfile, HpFacts.hp_loop_app, Hloop.
  destruct (loop_gtf_grows pre (init true) st None [] Hloop eq_refl) as [file Hst].
  simpl in Hst. exists file.
  destruct (loop st post) as [st' err] eqn:Hpost.
  destruct (loop_gtf_grows post st st' err file Hpost Hst) as [extra Hst'].
  exists extra. by rewrite Hst.
Qed.

Lemma hp_tags_gtf_extends_witness :
  ∃ file extra,
    gtf_file (parse_hp_tags true Samples.two_groups) = Some file ∧
    gtf_file (parse_hp_tags true (Samples.two_groups ++ Samples.median_stream))
    = Some (file ++ extra).
Proof.
  apply (hp_tags_gtf_extends Samples.two_groups Samples.median_stream).
  vm_compute. reflexivity.
Defined.

End StreamFacts.
